(** * sego: a TF-IDF indexer and search engine

    Shallow embedding of the two programs of the repository:
    - the search program (lexer, [Model], [indexFolder], [tokenize],
      [search]), and
    - the batch index builder of [main.go] ([numOfDocsWithTerm],
      [calculateTFIDF]).

    Conventions.
    - A Go [rune] is a [Z]; a [[]rune] is a [list rune].  A Go string that
      is used as a map key is kept as its rune sequence.
    - A Go [int] is a [Z] kept in the signed 64-bit range by [wrap].
    - A Go [map] is a stdpp [gmap]; reading a missing key gives the zero
      value ([lookupInt]).
    - [float32] and [float64] are the IEEE 754 binary formats of
      [SpecFloat], rounding to nearest even.
    - A run-time panic is the outcome [Panic]; loops that are not
      structurally recursive take fuel and answer [Fuel] when it runs out. *)

From Stdlib Require Import ZArith Lia Bool.
From Stdlib Require Import Floats.SpecFloat.
From stdpp Require Import gmap strings list fin_maps sorting.

Local Open Scope Z_scope.

(** ** Outcomes of a Go computation *)

Inductive res (A : Type) : Type :=
| Ok (a : A)
| Panic
| Fuel.
Arguments Ok {A} a.
Arguments Panic {A}.
Arguments Fuel {A}.

#[global] Instance res_ret : MRet res := fun A a => Ok a.

#[global] Instance res_bind : MBind res := fun A B k r =>
  match r with
  | Ok a => k a
  | Panic => Panic
  | Fuel => Fuel
  end.

(** ** Runes and the [unicode] package *)

Definition rune : Type := Z.

(** The rune sequence of a string literal all of whose bytes are ASCII
    (for such a string, Go's [[]rune(s)] is the sequence of its bytes). *)
Definition runes (s : string) : list rune :=
  map (fun a => Z.of_N (Ascii.N_of_ascii a)) (String.list_ascii_of_string s).

Module unicode.

Definition MaxASCII : rune := 127.
Definition MaxLatin1 : rune := 255.

(** [uint32(r) <= MaxLatin1] for an [int32] rune. *)
Definition isLatin1 (r : rune) : bool := (0 <=? r) && (r <=? MaxLatin1).

(** The Latin-1 rows of the package's [properties] table. *)
Definition latin1Space (r : rune) : bool :=
  (r =? 9) || (r =? 10) || (r =? 11) || (r =? 12) || (r =? 13)
  || (r =? 32) || (r =? 133) || (r =? 160).

Definition latin1Number (r : rune) : bool :=
  ((48 <=? r) && (r <=? 57))
  || (r =? 178) || (r =? 179) || (r =? 185)
  || (r =? 188) || (r =? 189) || (r =? 190).

Definition latin1Letter (r : rune) : bool :=
  ((65 <=? r) && (r <=? 90)) || ((97 <=? r) && (r <=? 122))
  || (r =? 170) || (r =? 181) || (r =? 186)
  || ((192 <=? r) && (r <=? 214)) || ((216 <=? r) && (r <=? 246))
  || ((248 <=? r) && (r <=? 255)).

(** The range tables for the runes above Latin-1 (above ASCII for the
    case mapping) belong to the Go distribution; the development is
    parametric in them. *)
Record tables : Type := {
  White_Space : rune → bool;
  Number : rune → bool;
  Letter : rune → bool;
  UpperCase : rune → rune
}.

Section Predicates.
Variable T : tables.

Definition IsSpace (r : rune) : bool :=
  if isLatin1 r then latin1Space r else White_Space T r.

Definition IsNumber (r : rune) : bool :=
  if isLatin1 r then latin1Number r else Number T r.

Definition IsLetter (r : rune) : bool :=
  if isLatin1 r then latin1Letter r else Letter T r.

Definition ToUpper (r : rune) : rune :=
  if r <=? MaxASCII then
    (if (97 <=? r) && (r <=? 122) then r - 32 else r)
  else UpperCase T r.
End Predicates.

(** Tables that know no rune outside Latin-1. *)
Definition latin1Only : tables :=
  {| White_Space := fun _ => false;
     Number := fun _ => false;
     Letter := fun _ => false;
     UpperCase := fun r => r |}.

End unicode.

(** ** The lexer *)

Record lexer : Type := NewLexer { content : list rune }.

(** [n := 0; for n < len(s) && p(s[n]) { n++ }] *)
Fixpoint scan (p : rune → bool) (s : list rune) : nat :=
  match s with
  | [] => O
  | r :: s' => if p r then S (scan p s') else O
  end.

(** [s[lo:]], which panics when [lo > len(s)]. *)
Definition sliceFrom (s : list rune) (lo : nat) : res (list rune) :=
  if (lo <=? length s)%nat then Ok (drop lo s) else Panic.

Section Lexer.
Variable T : unicode.tables.

Fixpoint trimLeftRunes (s : list rune) : list rune :=
  match s with
  | [] => []
  | r :: s' => if unicode.IsSpace T r then trimLeftRunes s' else s
  end.

Definition trimLeft (l : lexer) : lexer :=
  NewLexer (trimLeftRunes (content l)).

(** [token := l.content[0:n]; l.content = l.content[n:]] *)
Definition chop (n : nat) (l : lexer) : res (list rune * lexer) :=
  if (n <=? length (content l))%nat
  then Ok (take n (content l), NewLexer (drop n (content l)))
  else Panic.

Definition chopWhile (predicate : rune → bool) (l : lexer)
  : res (list rune * lexer) :=
  chop (scan predicate (content l)) l.

(** [Next] answers the token ([None] for Go's [nil]), [hasNext] and the
    lexer after the call. *)
Definition Next (l : lexer) : res (option (list rune) * bool * lexer) :=
  let l := trimLeft l in
  match content l with
  | [] => Ok (None, false, l)
  | c :: _ =>
    if c =? 60 then
      let n := scan (fun r => negb (r =? 62)) (content l) in
      rest ← sliceFrom (content l) (n + 1);
      Ok (None, true, NewLexer rest)
    else if unicode.IsNumber T c then
      '(token, l') ← chopWhile (unicode.IsNumber T) l;
      Ok (Some token, true, l')
    else if unicode.IsLetter T c then
      '(token, l') ← chopWhile
         (fun r => unicode.IsLetter T r || unicode.IsNumber T r) l;
      Ok (Some token, true, l')
    else
      '(token, l') ← chop 1 l;
      Ok (Some token, true, l')
  end.

(** The loop of [tokenize]; the upper-casing writes into the token's
    own cells, which the lexer has already left behind. *)
Fixpoint tokenizeLoop (fuel : nat) (l : lexer) (result : list (list rune))
  : res (list (list rune)) :=
  match fuel with
  | O => Fuel
  | S fuel' =>
    '(token, hasNext, l') ← Next l;
    if negb hasNext then Ok result
    else match token with
         | None => tokenizeLoop fuel' l' result
         | Some token =>
           tokenizeLoop fuel' l' (result ++ [map (unicode.ToUpper T) token])
         end
  end.

Definition tokenize (term : list rune) : res (list (list rune)) :=
  tokenizeLoop (S (length term)) (NewLexer term) [].

End Lexer.


(** ** Go's [int] and maps *)

(** Two's complement wrap-around of a 64-bit [int]. *)
Definition wrap (z : Z) : Z := (z + 2 ^ 63) `mod` 2 ^ 64 - 2 ^ 63.

(** [m[k]] for a [map[K]int]: the zero value when [k] is missing. *)
Definition lookupInt `{Countable K} (m : gmap K Z) (k : K) : Z :=
  default 0 (m !! k).

(** [m[k]++] and [m[k] += 1]. *)
Definition incr `{Countable K} (k : K) (m : gmap K Z) : gmap K Z :=
  <[k := wrap (lookupInt m k + 1)]> m.

(** [type TermFreq = map[string]int], keyed by the token's runes. *)
Abbreviation TermFreq := (gmap (list rune) Z).
(** [type TermFreqTable = map[string]TermFreq], keyed by the file path. *)
Abbreviation TermFreqTable := (gmap string (gmap (list rune) Z)).
(** [type DocFreq = map[string]int]. *)
Abbreviation DocFreq := (gmap (list rune) Z).

(** ** Floating point *)

Abbreviation float32 := spec_float.
Abbreviation float64 := spec_float.

Module f32.
Definition prec : Z := 24.
Definition emax : Z := 128.
(** [float32(z)] for an [int]. *)
Definition of_int (z : Z) : float32 := binary_normalize prec emax z 0 false.
(** [float32(x)] for a [float64]. *)
Definition of_f64 (x : float64) : float32 :=
  match x with
  | S754_finite s m e => binary_round prec emax s m e
  | _ => x
  end.
Definition div : float32 → float32 → float32 := SFdiv prec emax.
Definition mul : float32 → float32 → float32 := SFmul prec emax.
Definition add : float32 → float32 → float32 := SFadd prec emax.
Definition zero : float32 := S754_zero false.
End f32.

Module f64.
Definition prec : Z := 53.
Definition emax : Z := 1024.
(** [float64(z)] for an [int]. *)
Definition of_int (z : Z) : float64 := binary_normalize prec emax z 0 false.
Definition div : float64 → float64 → float64 := SFdiv prec emax.
Definition one : float64 := S754_finite false 4503599627370496 (-52).
Definition half : float64 := S754_finite false 4503599627370496 (-53).
Definition two : float64 := S754_finite false 4503599627370496 (-51).
Definition two_pow_10 : float64 := S754_finite false 4503599627370496 (-42).
Definition valid (x : float64) : bool := valid_binary prec emax x.
End f64.

Module math.
(** [math.Max], with its special cases in the order of the Go source. *)
Definition Max (x y : float64) : float64 :=
  match x, y with
  | S754_infinity false, _ | _, S754_infinity false => S754_infinity false
  | S754_nan, _ | _, S754_nan => S754_nan
  | S754_zero sx, S754_zero _ => if sx then y else x
  | _, _ => if SFltb y x then x else y
  end.
End math.

(** ** The search program *)

Record Model : Type := { TF : TermFreqTable; DF : DocFreq }.

Definition newModel : Model := {| TF := ∅; DF := ∅ |}.

Record SearchResult : Type := { Path : string; Rank : float32 }.

(** [SearchResults.Less], on the elements themselves. *)
Definition Less (a b : SearchResult) : bool := SFltb (Rank a) (Rank b).

(** [sort.Reverse(data).Less(i, j) = data.Less(j, i)]. *)
Definition Reverse {A : Type} (less : A → A → bool) : A → A → bool :=
  fun a b => less b a.

Definition calculateTF (term : list rune) (tfTable : TermFreq) : float32 :=
  let sumOfTerms := map_fold (fun _ v sum => wrap (sum + v)) 0 tfTable in
  f32.div (f32.of_int (lookupInt tfTable term)) (f32.of_int sumOfTerms).

Section Indexing.
Variable T : unicode.tables.

(** The token loop of [indexFolder] (and of [generateTft]). *)
Fixpoint countLoop (fuel : nat) (l : lexer) (tf : TermFreq) : res TermFreq :=
  match fuel with
  | O => Fuel
  | S fuel' =>
    '(token, hasNext, l') ← Next T l;
    if negb hasNext then Ok tf
    else match token with
         | None => countLoop fuel' l' tf
         | Some token =>
           countLoop fuel' l' (incr (map (unicode.ToUpper T) token) tf)
         end
  end.

Definition countTokens (content : list rune) : res TermFreq :=
  countLoop (S (length content)) (NewLexer content) ∅.

(** [for t := range tf { m.DF[t] += 1 }] *)
Definition bumpDF (tf : TermFreq) (df : DocFreq) : DocFreq :=
  map_fold (fun t _ df => incr t df) df tf.

(** [indexFolder] over the files of the folder, given as the paths that
    [readDir] lists with the runes of what [readFile] reads. *)
Fixpoint indexFolder (files : list (string * list rune)) (m : Model)
  : res Model :=
  match files with
  | [] => Ok m
  | (filePath, content) :: files' =>
    tf ← countTokens content;
    indexFolder files'
      {| TF := <[filePath := tf]> (TF m); DF := bumpDF tf (DF m) |}
  end.

End Indexing.

Section Search.
Variable T : unicode.tables.
(** [math.Log]. *)
Variable Log : float64 → float64.
(** [sort.Sort], given the [Less] of its argument. *)
Variable Sort :
  (SearchResult → SearchResult → bool) → list SearchResult → list SearchResult.

Definition calculateIDF (df n : Z) : float32 :=
  f32.of_f64 (Log (f64.div (f64.of_int n) (math.Max (f64.of_int df) f64.one))).

(** The inner loop of [search]: the rank of one document. *)
Definition rankOf (m : Model) (tokens : list (list rune)) (tfTable : TermFreq)
  : float32 :=
  fold_left
    (fun rank token =>
       f32.add rank
         (f32.mul (calculateTF token tfTable)
                  (calculateIDF (lookupInt (DF m) token)
                                (Z.of_nat (size (TF m))))))
    tokens f32.zero.

(** The outer loop of [search]: one result for each entry that the map
    yields. *)
Definition resultsOf (m : Model) (tokens : list (list rune))
    (entries : list (string * TermFreq)) : list SearchResult :=
  map (fun '(path, tfTable) =>
         {| Path := path; Rank := rankOf m tokens tfTable |}) entries.

(** [search]; [order] is the sequence in which [range m.TF] yields the
    entries of the map. *)
Definition search (order : list (string * TermFreq)) (m : Model)
  (query : list rune) : res (list SearchResult) :=
  tokens ← tokenize T query;
  let result := resultsOf m tokens order in
  Ok (Sort (Reverse Less) result).

End Search.

(** [sort.insertionSort], which is what [sort.Sort] runs on a slice of at
    most twelve elements.  [sink] is the inner loop: the new element moves
    left while it is less than its left neighbour ([before] lists the
    elements to its left, nearest first). *)
Fixpoint sink {A : Type} (less : A → A → bool) (x : A) (before : list A)
  : list A :=
  match before with
  | [] => [x]
  | y :: ys => if less x y then y :: sink less x ys else x :: y :: ys
  end.

Definition insertionSort {A : Type} (less : A → A → bool) (data : list A)
  : list A :=
  rev (fold_left (fun before x => sink less x before) data []).

(** ** The batch index builder ([main.go]) *)

Module builder.

Abbreviation TfIdf := (gmap (list rune) float32).
Abbreviation PathTfIdf := (gmap string (gmap (list rune) float32)).

Definition calculateTF (count : Z) (document : TermFreq) : float32 :=
  let sumOfTerms := map_fold (fun _ v sum => wrap (sum + v)) 0 document in
  f32.div (f32.of_int count) (f32.of_int sumOfTerms).

Definition numOfDocsWithTerm (term : list rune) (table : TermFreqTable) : Z :=
  map_fold
    (fun _ (document : gmap (list rune) Z) n =>
       match document !! term with
       | Some _ => wrap (n + 1)
       | None => n
       end) 0 table.

Section Builder.
Variable Log : float64 → float64.

Definition calculateIDF (numberOfDocs numberOfDocsWithTerm : Z) : float32 :=
  f32.of_f64
    (Log (f64.div (f64.of_int numberOfDocs)
                  (math.Max (f64.of_int numberOfDocsWithTerm) f64.one))).

Definition tfidfOf (table : TermFreqTable) (document : TermFreq)
  (term : list rune) (count : Z) : float32 :=
  let tf := calculateTF count document in
  let idf := calculateIDF (Z.of_nat (size table))
                          (numOfDocsWithTerm term table) in
  f32.mul tf idf.

(** The inner loop of [calculateTFIDF], filling the row of one document. *)
Definition tfidfRow (table : TermFreqTable) (document : TermFreq) : TfIdf :=
  map_fold
    (fun term count (row : gmap (list rune) float32) =>
       let tfidf := tfidfOf table document term count in
       if SFltb f32.zero tfidf then <[term := tfidf]> row else row)
    ∅ document.

Definition calculateTFIDF (table : TermFreqTable) : PathTfIdf :=
  map_fold
    (fun path document (t : gmap string (gmap (list rune) float32)) =>
       <[path := tfidfRow table document]> t)
    ∅ table.

End Builder.

(** [generateTft], with the files given as for [indexFolder]. *)
Fixpoint generateTft (T : unicode.tables) (files : list (string * list rune))
  (tft : TermFreqTable) : res TermFreqTable :=
  match files with
  | [] => Ok tft
  | (filePath, content) :: files' =>
    tf ← countTokens T content;
    generateTft T files' (<[filePath := tf]> tft)
  end.

End builder.

(** ** Specification-level notions *)

(** The number of documents of [table] whose term counts contain [t]. *)
Definition docsWith (t : list rune) (table : TermFreqTable) : nat :=
  size (filter (fun kv => is_Some (kv.2 !! t)) table).

(** The invariant of the model: [DF[t]] is, in Go's [int], the number of
    documents holding [t]. *)
Definition DFInvariant (m : Model) : Prop :=
  ∀ t, lookupInt (DF m) t = wrap (Z.of_nat (docsWith t (TF m))).

(** What is assumed of [math.Log], which belongs to the Go distribution.

    [LogOne]: the logarithm of one is zero.

    [LogRange]: on a finite [x] with [2 <= x] the result is a [float64]
    between one half and [2^10] (the natural logarithm of such a number
    lies between [0.69] and [709.8]). *)
Definition LogOne (Log : float64 → float64) : Prop :=
  Log f64.one = S754_zero false.

Definition LogRange (Log : float64 → float64) : Prop :=
  ∀ x, f64.valid x = true →
       SFleb f64.two x = true → SFltb x (S754_infinity false) = true →
       f64.valid (Log x) = true
       ∧ SFleb f64.half (Log x) = true
       ∧ SFltb (Log x) f64.two_pow_10 = true.

(** A function with both properties, which shows that they can be met
    together; it is not the logarithm. *)
Definition stepLog (x : float64) : float64 :=
  if SFleb f64.two x then f64.one else S754_zero false.

(** A [float32] that is a number. *)
Definition notNaN (x : float32) : Prop := x ≠ S754_nan.

(** What [sort.Sort] promises.  With [P] holding of the elements, [less]
    is an ordering in the sense of the [sort] package when it is a strict
    weak order on them. *)
Definition StrictWeakOn {A : Type} (P : A → Prop) (less : A → A → bool)
  : Prop :=
  (∀ a, P a → less a a = false)
  ∧ (∀ a b c, P a → P b → P c →
       less a b = true → less b c = true → less a c = true)
  ∧ (∀ a b c, P a → P b → P c →
       less a b = false → less b c = false → less a c = false).

(** The slice is rearranged by swaps only, and it ends up in ascending
    order for [less] when [less] is an ordering of its elements. *)
Definition SortSpec {A : Type}
    (Sort : (A → A → bool) → list A → list A) : Prop :=
  (∀ less l, Sort less l ≡ₚ l)
  ∧ (∀ (P : A → Prop) less l, StrictWeakOn P less → Forall P l →
       StronglySorted (fun a b => less b a = false) (Sort less l)).

(** ** Example data *)

(** A folder of three files, the first of them empty, and the model
    that [indexFolder] builds from it. *)
Definition exampleFiles : list (string * list rune) :=
  [("a.txt"%string, runes ""); ("b.txt"%string, runes "x");
   ("c.txt"%string, runes "y")].

Definition exampleModel : Model :=
  {| TF := <["a.txt"%string := ∅]>
             (<["b.txt"%string := {[runes "X" := 1]}]>
                (<["c.txt"%string := {[runes "Y" := 1]}]> ∅));
     DF := <[runes "X" := 1]> (<[runes "Y" := 1]> ∅) |}.

(** One of the orders in which [range m.TF] may yield its entries. *)
Definition exampleOrder : list (string * gmap (list rune) Z) :=
  [("c.txt"%string, {[runes "Y" := 1]}); ("a.txt"%string, ∅);
   ("b.txt"%string, {[runes "X" := 1]})].

(** A table of two documents for the batch builder. *)
Definition exampleTable : gmap string (gmap (list rune) Z) :=
  <["a.txt"%string := <[runes "X" := 1]> {[runes "Y" := 1]}]>
    {["b.txt"%string := {[runes "X" := 1]}]}.

(** ** Further notions used in the properties below *)

(** What [Next] does on input that is already trimmed: the token, whether
    more may follow, and the input that is left. *)
Definition nextTrimmed (T : unicode.tables) (s : list rune)
  : res (option (list rune) * bool * list rune) :=
  match s with
  | [] => Ok (None, false, [])
  | c :: r =>
    if c =? 60 then
      let n := scan (fun r => negb (r =? 62)) s in
      if (n + 1 <=? length s)%nat then Ok (None, true, drop (n + 1) s)
      else Panic
    else if unicode.IsNumber T c then
      let n := scan (unicode.IsNumber T) s in
      Ok (Some (take n s), true, drop n s)
    else if unicode.IsLetter T c then
      let n := scan (fun r => unicode.IsLetter T r || unicode.IsNumber T r) s in
      Ok (Some (take n s), true, drop n s)
    else Ok (Some [c], true, r)
  end.

(** The test of the loop in [Next] that looks for the end of a tag. *)
Definition notGt (r : rune) : bool := negb (r =? 62).

(** A white space rune of Latin-1. *)
Definition latin1White (r : rune) : bool :=
  unicode.isLatin1 r && unicode.latin1Space r.

(** The sum that [calculateTF] forms over the counts of a document. *)
Definition sumOfTerms (tfTable : gmap (list rune) Z) : Z :=
  map_fold (fun _ v sum => wrap (sum + v)) 0 tfTable.

(** The counts that the token loop of [indexFolder] reaches from [tf]
    on the tokens [tokens], one increment for each. *)
Definition countAll (tokens : list (list rune)) (tf : gmap (list rune) Z)
  : gmap (list rune) Z :=
  fold_left (fun tf token => incr token tf) tokens tf.

(** Whether the counts of the text [text] hold the token [t]. *)
Definition textHolds (T : unicode.tables) (t : list rune) (text : list rune)
  : bool :=
  match countTokens T text with
  | Ok tf => bool_decide (is_Some (tf !! t))
  | _ => false
  end.

(** A function applied to the result of a computation that ends well. *)
#[global] Instance res_fmap : FMap res := fun A B f r =>
  match r with
  | Ok a => Ok (f a)
  | Panic => Panic
  | Fuel => Fuel
  end.

(** The step of the loop of [tokenize] on the outcome of [Next]. *)
Definition tokenizeStep (T : unicode.tables)
    (next : res (option (list rune) * bool * list rune))
    (continue : list rune → res (list (list rune)))
  : res (list (list rune)) :=
  match next with
  | Ok (_, false, _) => Ok []
  | Ok (None, true, rest) => continue rest
  | Ok (Some token, true, rest) =>
    cons (map (unicode.ToUpper T) token) <$> continue rest
  | Panic => Panic
  | Fuel => Fuel
  end.

(** How often the token [t] occurs among [tokens]. *)
Definition occurrences (t : list rune) (tokens : list (list rune)) : nat :=
  length (filter (fun x => x = t) tokens).

(** The number of the files whose counts hold the token [t]. *)
Definition filesHolding (T : unicode.tables) (t : list rune)
    (files : list (string * list rune)) : nat :=
  length (filter (fun f => textHolds T t f.2 = true) files).

(** A model of two documents, both with tokens. *)
Definition exampleModel2 : Model :=
  {| TF := <["b.txt"%string := {[runes "X" := 1]}]>
             (<["c.txt"%string := {[runes "Y" := 1]}]> ∅);
     DF := <[runes "X" := 1]> (<[runes "Y" := 1]> ∅) |}.

(** A rune of ASCII, as [unicode.ToUpper] tests it. *)
Definition isASCII (r : rune) : bool := r <=? unicode.MaxASCII.

(** A [float32] that is neither NaN nor infinite. *)
Definition isFinite (x : float32) : bool :=
  match x with
  | S754_zero _ | S754_finite _ _ _ => true
  | _ => false
  end.

(** The test that [trimLeft] fails on: the rune is no white space. *)
Definition notSpace (T : unicode.tables) (r : rune) : bool :=
  negb (unicode.IsSpace T r).

(** The test that no tag starts at the rune. *)
Definition notLt (r : rune) : bool := negb (r =? 60).

(** ** Properties of the lexer *)

Section LexerFacts.
Variable T : unicode.tables.

Lemma scan_le p s : (scan p s ≤ length s)%nat.
Proof. induction s as [|r s IH]; simpl; [lia|]. destruct (p r); simpl; lia. Qed.

Lemma scan_pos p c s : p c = true → (1 ≤ scan p (c :: s))%nat.
Proof. intros Hp. simpl. rewrite Hp. lia. Qed.

(** The scan stops at the end of the input exactly when no rune fails
    the predicate. *)
Lemma scan_all p s : scan p s = length s ↔ forallb p s = true.
Proof.
  induction s as [|r s IH]; simpl; [tauto|].
  pose proof (scan_le p s). destruct (p r); simpl.
  - rewrite <- IH. lia.
  - split; [lia | discriminate].
Qed.

Lemma trimLeftRunes_le s : (length (trimLeftRunes T s) ≤ length s)%nat.
Proof.
  induction s as [|r s IH]; simpl; [lia|].
  destruct (unicode.IsSpace T r); simpl; lia.
Qed.

Lemma chop_spec n l tok l' :
  chop n l = Ok (tok, l') →
  tok = take n (content l) ∧ content l' = drop n (content l)
  ∧ (n ≤ length (content l))%nat.
Proof.
  unfold chop. destruct (n <=? length (content l))%nat eqn:E; [|discriminate].
  intros [= <- <-]. apply Nat.leb_le in E. auto.
Qed.

(** [Next] never answers [Fuel]: it has no unbounded loop of its own. *)
Lemma Next_not_Fuel l : Next T l ≠ Fuel.
Proof.
  unfold Next. destruct (content (trimLeft T l)) as [|c s] eqn:E; [discriminate|].
  destruct (c =? 60).
  - unfold sliceFrom. destruct (_ <=? _)%nat; simpl; discriminate.
  - destruct (unicode.IsNumber T c); [|destruct (unicode.IsLetter T c)];
      unfold chopWhile, chop; rewrite E;
      destruct (_ <=? _)%nat; simpl; discriminate.
Qed.

(** A call that signals [hasNext] leaves strictly less input. *)
Lemma Next_shrinks l tok l' :
  Next T l = Ok (tok, true, l') →
  (length (content l') < length (content l))%nat.
Proof.
  unfold Next. pose proof (trimLeftRunes_le (content l)) as Htrim.
  unfold trimLeft at 1. simpl.
  destruct (trimLeftRunes T (content l)) as [|c s] eqn:E; [discriminate|].
  simpl in Htrim. unfold trimLeft. rewrite E.
  destruct (c =? 60) eqn:Hlt.
  - unfold sliceFrom.
    destruct (_ <=? _)%nat eqn:Hle; simpl; [|discriminate].
    intros [= _ <-]. simpl. rewrite length_drop. simpl. lia.
  - assert (Hchop : ∀ n, (1 ≤ n)%nat →
              (x ← chop n (NewLexer (c :: s));
               let '(token, l'0) := x in Ok (Some token, true, l'0))
              = Ok (tok, true, l') →
              (length (content l') < length (content l))%nat).
    { intros n Hn. destruct (chop n (NewLexer (c :: s))) as [[t0 l0]| |] eqn:Hc;
        simpl; try discriminate.
      intros [= _ <-]. apply chop_spec in Hc as (_ & -> & Hle). simpl in *.
      rewrite length_drop. simpl. lia. }
    destruct (unicode.IsNumber T c) eqn:HN; [|destruct (unicode.IsLetter T c) eqn:HL].
    + apply Hchop. apply scan_pos. exact HN.
    + apply Hchop. apply scan_pos. rewrite HL. reflexivity.
    + apply Hchop. lia.
Qed.

(** With more fuel than input the loop of [tokenize] never runs dry. *)
Lemma tokenizeLoop_enough fuel : ∀ l result,
  (length (content l) < fuel)%nat → tokenizeLoop T fuel l result ≠ Fuel.
Proof.
  induction fuel as [|fuel IH]; intros l result Hlen; [lia|].
  simpl. destruct (Next T l) as [[[tok hasNext] l']| |] eqn:HN; simpl.
  - destruct hasNext; simpl; [|discriminate].
    apply Next_shrinks in HN.
    destruct tok; apply IH; lia.
  - discriminate.
  - exfalso. exact (Next_not_Fuel _ HN).
Qed.

(** There are at most as many tokens as runes. *)
Lemma tokenizeLoop_length fuel : ∀ l result tokens,
  tokenizeLoop T fuel l result = Ok tokens →
  (length tokens ≤ length result + length (content l))%nat.
Proof.
  induction fuel as [|fuel IH]; intros l result tokens; [discriminate|].
  simpl. destruct (Next T l) as [[[tok hasNext] l']| |] eqn:HN; simpl;
    try discriminate.
  destruct hasNext; simpl.
  - apply Next_shrinks in HN. destruct tok as [tok|]; intros Hrun;
      apply IH in Hrun; rewrite ?length_app in Hrun; simpl in Hrun; lia.
  - intros [= <-]. lia.
Qed.

(** The same for the token loop of [indexFolder]. *)
Lemma countLoop_enough fuel : ∀ l (tf : gmap (list rune) Z),
  (length (content l) < fuel)%nat → countLoop T fuel l tf ≠ Fuel.
Proof.
  induction fuel as [|fuel IH]; intros l tf Hlen; [lia|].
  simpl. destruct (Next T l) as [[[tok hasNext] l']| |] eqn:HN; simpl.
  - destruct hasNext; simpl; [|discriminate].
    apply Next_shrinks in HN.
    destruct tok; apply IH; lia.
  - discriminate.
  - exfalso. exact (Next_not_Fuel _ HN).
Qed.

Lemma indexFolder_not_Fuel files : ∀ m, indexFolder T files m ≠ Fuel.
Proof.
  induction files as [|[path text] files IH]; intros m; simpl; [discriminate|].
  destruct (countTokens T text) as [tf| |] eqn:Htf; simpl.
  - apply IH.
  - discriminate.
  - exfalso. revert Htf. apply countLoop_enough. simpl. lia.
Qed.

(** [Next] panics exactly on an unterminated tag. *)
Lemma Next_Panic_iff l :
  Next T l = Panic ↔
  ∃ s, trimLeftRunes T (content l) = 60 :: s
       ∧ forallb (fun r => negb (r =? 62)) s = true.
Proof.
  unfold Next, trimLeft. simpl.
  destruct (trimLeftRunes T (content l)) as [|c s] eqn:E.
  - split; [discriminate | intros (s & [=] & _)].
  - destruct (c =? 60) eqn:Hc.
    + apply Z.eqb_eq in Hc. subst c. unfold sliceFrom.
      change (scan (λ r, negb (r =? 62)) (60 :: s))
        with (S (scan (λ r, negb (r =? 62)) s)).
      pose proof (scan_le (λ r, negb (r =? 62)) s) as Hle.
      pose proof (scan_all (λ r, negb (r =? 62)) s) as Hall.
      destruct (_ <=? _)%nat eqn:Hb; simpl.
      * apply Nat.leb_le in Hb. simpl in Hb.
        split; [discriminate|]. intros (s0 & [= <-] & Hs0).
        apply Hall in Hs0. lia.
      * apply Nat.leb_gt in Hb. simpl in Hb.
        split; [|reflexivity]. intros _. exists s. split; [reflexivity|].
        apply Hall. lia.
    + split.
      * destruct (unicode.IsNumber T c); [|destruct (unicode.IsLetter T c)];
          unfold chopWhile, chop; simpl content;
          match goal with
          | |- context [(?n <=? ?m)%nat] =>
              let H := fresh in
              assert (H : (n <=? m)%nat = true);
              [apply Nat.leb_le; first [apply scan_le | simpl; lia]
              | rewrite H; simpl; discriminate]
          end.
      * intros (s0 & [= -> _] & _). discriminate.
Qed.

End LexerFacts.

(** ** Integers and maps *)

Lemma wrap_small z : - 2 ^ 63 ≤ z < 2 ^ 63 → wrap z = z.
Proof. intros Hz. unfold wrap. rewrite Z.mod_small; lia. Qed.

Lemma wrap_succ z : wrap (wrap z + 1) = wrap (z + 1).
Proof.
  unfold wrap.
  replace ((z + 2 ^ 63) `mod` 2 ^ 64 - 2 ^ 63 + 1 + 2 ^ 63)
    with ((z + 2 ^ 63) `mod` 2 ^ 64 + 1) by lia.
  rewrite Zplus_mod_idemp_l. f_equal. f_equal. lia.
Qed.

Lemma lookupInt_incr_eq `{Countable K} (k : K) (m : gmap K Z) :
  lookupInt (incr k m) k = wrap (lookupInt m k + 1).
Proof. unfold incr, lookupInt at 1. by rewrite lookup_insert_eq. Qed.

Lemma lookupInt_incr_ne `{Countable K} (k k' : K) (m : gmap K Z) :
  k ≠ k' → lookupInt (incr k m) k' = lookupInt m k'.
Proof. intros Hne. unfold incr, lookupInt. by rewrite lookup_insert_ne. Qed.

(** One pass of [for t := range tf { m.DF[t] += 1 }] adds exactly one to
    the entry of every key of [tf], whatever the count stored under it,
    and leaves the other entries alone. *)
Lemma bumpDF_lookup (tf df : gmap (list rune) Z) (t : list rune) :
  lookupInt (bumpDF tf df) t
  = if decide (is_Some (tf !! t)) then wrap (lookupInt df t + 1)
    else lookupInt df t.
Proof.
  revert t. unfold bumpDF.
  refine (map_fold_weak_ind
            (fun r (m : gmap (list rune) Z) => ∀ t,
               lookupInt r t
               = if decide (is_Some (m !! t)) then wrap (lookupInt df t + 1)
                 else lookupInt df t) _ _ _ _ tf).
  - intros t. rewrite lookup_empty. case_decide as Hs; [|done].
    by destruct Hs.
  - intros i x m r Hfresh IH t. destruct (decide (i = t)) as [->|Hne].
    + rewrite lookupInt_incr_eq, lookup_insert_eq, IH, Hfresh.
      case_decide as Hs; [by destruct Hs|].
      case_decide as Hs'; [done|]. exfalso. apply Hs'. by eexists.
    + rewrite lookupInt_incr_ne, lookup_insert_ne by done. apply IH.
Qed.

Lemma docsWith_empty (t : list rune) : docsWith t ∅ = O.
Proof. unfold docsWith. by rewrite map_filter_empty, map_size_empty. Qed.

Lemma docsWith_insert (t : list rune) (path : string) (tf : gmap (list rune) Z)
    (table : gmap string (gmap (list rune) Z)) :
  table !! path = None →
  docsWith t (<[path := tf]> table)
  = if decide (is_Some (tf !! t)) then S (docsWith t table)
    else docsWith t table.
Proof.
  intros Hfresh. unfold docsWith. case_decide as Hs.
  - rewrite map_filter_insert_True by done.
    rewrite map_size_insert_None; [done|].
    apply map_lookup_filter_None. by left.
  - rewrite map_filter_insert_not'; [done|done|].
    intros y Hy. by rewrite Hfresh in Hy.
Qed.

Lemma docsWith_le (t : list rune) (table : gmap string (gmap (list rune) Z)) :
  (docsWith t table ≤ size table)%nat.
Proof. apply map_size_filter. Qed.

(** [numOfDocsWithTerm] counts, in Go's [int], the documents that hold
    the term. *)
Lemma numOfDocsWithTerm_spec (t : list rune) (table : gmap string (gmap (list rune) Z)) :
  builder.numOfDocsWithTerm t table = wrap (Z.of_nat (docsWith t table)).
Proof.
  unfold builder.numOfDocsWithTerm.
  refine (map_fold_weak_ind
            (fun r (m : gmap string (gmap (list rune) Z)) =>
               r = wrap (Z.of_nat (docsWith t m))) _ _ _ _ table).
  - rewrite docsWith_empty. done.
  - intros path tf m r Hfresh ->. rewrite docsWith_insert by done.
    destruct (tf !! t) as [c|] eqn:Hc.
    + rewrite decide_True by (by eexists).
      rewrite wrap_succ. f_equal. lia.
    + rewrite decide_False; [done|]. by intros [? ?].
Qed.

(** ** The invariant of the document frequencies *)

Lemma DFInvariant_newModel : DFInvariant newModel.
Proof.
  intros t. simpl. rewrite docsWith_empty. unfold lookupInt.
  by rewrite lookup_empty.
Qed.

Lemma DFInvariant_step (m : Model) (path : string) (tf : gmap (list rune) Z) :
  TF m !! path = None → DFInvariant m →
  DFInvariant {| TF := <[path := tf]> (TF m); DF := bumpDF tf (DF m) |}.
Proof.
  intros Hfresh Hinv t. simpl.
  rewrite bumpDF_lookup, docsWith_insert by done.
  case_decide; [|apply Hinv].
  rewrite Hinv, wrap_succ. f_equal. lia.
Qed.

Section IndexFolderFacts.
Variable T : unicode.tables.

Lemma indexFolder_invariant files : ∀ m m',
  NoDup files.*1 → (∀ p, p ∈ files.*1 → TF m !! p = None) →
  DFInvariant m → indexFolder T files m = Ok m' →
  DFInvariant m' ∧ size (TF m') = (size (TF m) + length files)%nat.
Proof.
  induction files as [|[path content] files IH]; intros m m' Hnd Hfresh Hinv.
  - simpl. intros [= <-]. split; [done|lia].
  - simpl. destruct (countTokens T content) as [tf| |] eqn:Htf; simpl;
      try discriminate.
    intros Hrun. simpl in Hnd. apply NoDup_cons in Hnd as [Hnotin Hnd].
    assert (Hp : TF m !! path = None) by (apply Hfresh; simpl; left).
    apply IH in Hrun as [Hinv' Hsize]; try done.
    + split; [done|]. rewrite Hsize. simpl.
      rewrite map_size_insert_None by done. lia.
    + intros p Hin. simpl. rewrite lookup_insert_ne.
      * apply Hfresh. simpl. by right.
      * intros ->. done.
    + by apply DFInvariant_step.
Qed.

End IndexFolderFacts.

(** ** Floating point: the rounding of [SpecFloat] *)

Lemma digits2_pos_bounds p :
  2 ^ (Z.pos (digits2_pos p) - 1) ≤ Z.pos p < 2 ^ Z.pos (digits2_pos p).
Proof.
  induction p as [p IH|p IH|]; simpl digits2_pos.
  - rewrite Pos2Z.inj_succ.
    replace (Z.succ (Z.pos (digits2_pos p)) - 1)
      with (Z.succ (Z.pos (digits2_pos p) - 1)) by lia.
    rewrite !Z.pow_succ_r by lia. lia.
  - rewrite Pos2Z.inj_succ.
    replace (Z.succ (Z.pos (digits2_pos p)) - 1)
      with (Z.succ (Z.pos (digits2_pos p) - 1)) by lia.
    rewrite !Z.pow_succ_r by lia. lia.
  - simpl. lia.
Qed.

Lemma digits2_pos_unique p d :
  2 ^ (d - 1) ≤ Z.pos p < 2 ^ d → Z.pos (digits2_pos p) = d.
Proof.
  intros [Hlo Hhi]. pose proof (digits2_pos_bounds p) as [Hlo' Hhi'].
  set (d' := Z.pos (digits2_pos p)) in *.
  assert (0 < d).
  { destruct (Z.lt_trichotomy d 0) as [Hd|[Hd|Hd]]; [|subst d; simpl in *; lia|done].
    rewrite (Z.pow_neg_r 2 d) in Hhi by done. lia. }
  destruct (Z.lt_trichotomy d' d) as [Hlt|[Heq|Hgt]]; [|exact Heq|].
  - exfalso. assert (2 ^ d' ≤ 2 ^ (d - 1)) by (apply Z.pow_le_mono_r; lia). lia.
  - exfalso. assert (2 ^ d ≤ 2 ^ (d' - 1)) by (apply Z.pow_le_mono_r; lia). lia.
Qed.

Lemma digits2_pos_shift p k :
  digits2_pos (Pos.iter xO p k) = (digits2_pos p + k)%positive.
Proof.
  induction k as [|k IH] using Pos.peano_ind.
  - simpl. lia.
  - rewrite Pos.iter_succ. simpl. rewrite IH. lia.
Qed.

Lemma iter_pos_iter {A : Type} (f : A → A) k : ∀ x,
  SpecFloat.iter_pos f k x = Pos.iter f x k.
Proof.
  induction k as [k IH|k IH|]; intros x; simpl.
  - rewrite !IH. rewrite <- !Pos.iter_swap. reflexivity.
  - rewrite !IH. reflexivity.
  - reflexivity.
Qed.

Lemma shr_1_m mrs : 0 ≤ shr_m mrs → shr_m (shr_1 mrs) = shr_m mrs / 2.
Proof.
  destruct mrs as [m r s]. simpl. intros Hm.
  destruct m as [|[p|p|]|p]; cbn [shr_m].
  - reflexivity.
  - rewrite Pos2Z.inj_xI. apply Z.div_unique with 1; lia.
  - rewrite Pos2Z.inj_xO. apply Z.div_unique with 0; lia.
  - reflexivity.
  - lia.
Qed.

Lemma shr_iter_m k : ∀ mrs,
  0 ≤ shr_m mrs → shr_m (SpecFloat.iter_pos shr_1 k mrs) = shr_m mrs / 2 ^ Z.pos k.
Proof.
  intros mrs. rewrite iter_pos_iter. revert mrs.
  induction k as [|k IH] using Pos.peano_ind; intros mrs Hm.
  - simpl. rewrite shr_1_m by done. reflexivity.
  - rewrite Pos.iter_succ. rewrite shr_1_m.
    + rewrite IH by done. rewrite Pos2Z.inj_succ, Z.pow_succ_r by lia.
      rewrite Z.div_div by lia. f_equal. lia.
    + rewrite IH by done. apply Z.div_pos; lia.
Qed.

Lemma round_nearest_even_cases q l :
  round_nearest_even q l = q ∨ round_nearest_even q l = q + 1.
Proof.
  destruct l as [|[| |]]; simpl; auto. destruct (Z.even q); auto.
Qed.

Lemma shr_record_of_loc_m m l : shr_m (shr_record_of_loc m l) = m.
Proof. destruct l as [|[| |]]; reflexivity. Qed.

Section Rounding.
Variables prec emax : Z.
Hypothesis Hprec : 0 < prec.

(** In the normal range the first shift of the rounding drops exactly
    the digits beyond the precision. *)
Lemma shr_fexp_normal (m : positive) (e : Z) (l : location) :
  let d := Z.pos (digits2_pos m) in
  prec ≤ d → emin prec emax ≤ e + d - prec →
  ∃ mrs, shr_fexp prec emax (Z.pos m) e l = (mrs, e + d - prec)
         ∧ shr_m mrs = Z.pos m / 2 ^ (d - prec).
Proof.
  intros d Hd Hmin. unfold shr_fexp, fexp. cbn [Zdigits2]. fold d.
  rewrite Z.max_l by lia.
  replace (d + e - prec - e) with (d - prec) by lia.
  destruct (d - prec) as [|k|k] eqn:Hk; [| |lia].
  - eexists. split.
    + unfold shr. f_equal. lia.
    + rewrite shr_record_of_loc_m. simpl. by rewrite Z.div_1_r.
  - eexists. split.
    + unfold shr. f_equal. lia.
    + rewrite shr_iter_m; rewrite shr_record_of_loc_m; [done|lia].
Qed.

(** Rounding a mantissa of at least [prec] digits, in the normal range
    and below the overflow threshold, gives a normal number of the same
    sign: either the exponent is the one of the truncation, or the
    mantissa was carried to the next power of two. *)
Lemma binary_round_aux_normal (s : bool) (m : positive) (e : Z) (l : location) :
  let d := Z.pos (digits2_pos m) in
  prec ≤ d → emin prec emax ≤ e + d - prec → e + d - prec + 1 ≤ emax - prec →
  ∃ m' e', binary_round_aux prec emax s (Z.pos m) e l = S754_finite s m' e'
           ∧ Z.pos (digits2_pos m') = prec
           ∧ (e' = e + d - prec
              ∨ (e' = e + d - prec + 1 ∧ Z.pos m' = 2 ^ (prec - 1))).
Proof.
  intros d Hd Hmin Hmax.
  destruct (shr_fexp_normal m e l Hd Hmin) as (mrs & Hshr & Hq). fold d in Hshr, Hq.
  pose proof (digits2_pos_bounds m) as [Hlo Hhi]. fold d in Hlo, Hhi.
  assert (Hpow : 2 ^ d = 2 ^ prec * 2 ^ (d - prec))
    by (rewrite <- Z.pow_add_r by lia; f_equal; lia).
  assert (Hpow' : 2 ^ (d - 1) = 2 ^ (prec - 1) * 2 ^ (d - prec))
    by (rewrite <- Z.pow_add_r by lia; f_equal; lia).
  assert (Hk : 0 < 2 ^ (d - prec)) by (apply Z.pow_pos_nonneg; lia).
  assert (Hqlo : 2 ^ (prec - 1) ≤ shr_m mrs).
  { rewrite Hq. apply Z.div_le_lower_bound; lia. }
  assert (Hqhi : shr_m mrs < 2 ^ prec).
  { rewrite Hq. apply Z.div_lt_upper_bound; lia. }
  assert (Hp1 : 0 < 2 ^ (prec - 1)) by (apply Z.pow_pos_nonneg; lia).
  assert (Hp2 : 2 ^ prec = 2 * 2 ^ (prec - 1)).
  { rewrite <- Z.pow_succ_r by lia. f_equal. lia. }
  unfold binary_round_aux. rewrite Hshr.
  set (q' := round_nearest_even (shr_m mrs) (loc_of_shr_record mrs)).
  assert (Hq' : 2 ^ (prec - 1) ≤ q' ≤ 2 ^ prec).
  { destruct (round_nearest_even_cases (shr_m mrs) (loc_of_shr_record mrs))
      as [H|H]; fold q' in H; lia. }
  destruct q' as [|p'|p'] eqn:Eq'; [lia| |lia].
  destruct (Z.eq_dec (Z.pos p') (2 ^ prec)) as [Hcarry|Hnocarry].
  - assert (Hd' : Z.pos (digits2_pos p') = prec + 1).
    { apply digits2_pos_unique. replace (prec + 1 - 1) with prec by lia.
      rewrite Z.pow_add_r by lia. lia. }
    destruct (shr_fexp_normal p' (e + d - prec) loc_Exact) as (mrs2 & Hshr2 & Hq2).
    { lia. } { lia. }
    rewrite Hshr2. rewrite Hd' in Hq2.
    replace (prec + 1 - prec) with 1 in Hq2 by lia.
    rewrite Hcarry, Hp2 in Hq2. rewrite Z.pow_1_r in Hq2.
    rewrite Z.mul_comm, Z.div_mul in Hq2 by lia.
    rewrite Hq2. destruct (2 ^ (prec - 1)) as [|m''|m''] eqn:Em''; [lia| |lia].
    rewrite (proj2 (Z.leb_le _ _)) by lia.
    exists m'', (e + d - prec + Z.pos (digits2_pos p') - prec). split; [done|].
    split.
    + apply digits2_pos_unique. lia.
    + right. split; [lia|done].
  - assert (Hd' : Z.pos (digits2_pos p') = prec).
    { apply digits2_pos_unique. lia. }
    destruct (shr_fexp_normal p' (e + d - prec) loc_Exact) as (mrs2 & Hshr2 & Hq2).
    { lia. } { lia. }
    rewrite Hshr2. rewrite Hd' in Hq2.
    replace (prec - prec) with 0 in Hq2 by lia. rewrite Z.div_1_r in Hq2.
    rewrite Hq2. rewrite (proj2 (Z.leb_le _ _)) by lia.
    exists p', (e + d - prec + Z.pos (digits2_pos p') - prec). split; [done|].
    split; [done|]. left. lia.
Qed.

(** [binary_round] on a mantissa of any length, in the normal range. *)
Lemma binary_round_normal (s : bool) (m : positive) (e : Z) :
  let d := Z.pos (digits2_pos m) in
  emin prec emax ≤ e + d - prec → e + d - prec + 1 ≤ emax - prec →
  ∃ m' e', binary_round prec emax s m e = S754_finite s m' e'
           ∧ Z.pos (digits2_pos m') = prec
           ∧ (e' = e + d - prec
              ∨ (e' = e + d - prec + 1 ∧ Z.pos m' = 2 ^ (prec - 1))).
Proof.
  intros d Hmin Hmax. unfold binary_round, shl_align, fexp. fold d.
  rewrite Z.max_l by lia.
  replace (d + e - prec - e) with (d - prec) by lia.
  destruct (d - prec) as [|k|k] eqn:Hk.
  - destruct (binary_round_aux_normal s m e loc_Exact) as (m' & e' & H1 & H2 & H3);
      fold d; try lia.
    exists m', e'. fold d in H3. auto.
  - destruct (binary_round_aux_normal s m e loc_Exact) as (m' & e' & H1 & H2 & H3);
      fold d; try lia.
    exists m', e'. fold d in H3. auto.
  - assert (Hdk : Z.pos (digits2_pos (Pos.iter xO m k)) = prec).
    { rewrite digits2_pos_shift, Pos2Z.inj_add. fold d. lia. }
    destruct (binary_round_aux_normal s (Pos.iter xO m k) (d + e - prec) loc_Exact)
      as (m' & e' & H1 & H2 & H3); try lia.
    exists m', e'. split; [done|]. split; [done|].
    rewrite Hdk in H3. lia.
Qed.

End Rounding.

(** *** Comparisons of positive normal numbers *)

Lemma SFcompare_pos m1 e1 m2 e2 :
  SFcompare (S754_finite false m1 e1) (S754_finite false m2 e2)
  = Some (match e1 ?= e2 with
          | Lt => Lt
          | Gt => Gt
          | Eq => (m1 ?= m2)%positive
          end).
Proof. reflexivity. Qed.

Lemma SFleb_pos_intro m1 e1 m2 e2 :
  e1 < e2 ∨ (e1 = e2 ∧ Z.pos m1 ≤ Z.pos m2) →
  SFleb (S754_finite false m1 e1) (S754_finite false m2 e2) = true.
Proof.
  intros H. unfold SFleb. rewrite SFcompare_pos.
  destruct (Z.compare_spec e1 e2); [|done|lia].
  destruct (Pos.compare_spec m1 m2); [done|done|lia].
Qed.

Lemma SFltb_pos_intro m1 e1 m2 e2 :
  e1 < e2 ∨ (e1 = e2 ∧ Z.pos m1 < Z.pos m2) →
  SFltb (S754_finite false m1 e1) (S754_finite false m2 e2) = true.
Proof.
  intros H. unfold SFltb. rewrite SFcompare_pos.
  destruct (Z.compare_spec e1 e2); [|done|lia].
  destruct (Pos.compare_spec m1 m2); [lia|done|lia].
Qed.

Lemma SFleb_pos_elim m1 e1 m2 e2 :
  SFleb (S754_finite false m1 e1) (S754_finite false m2 e2) = true →
  e1 < e2 ∨ (e1 = e2 ∧ Z.pos m1 ≤ Z.pos m2).
Proof.
  unfold SFleb. rewrite SFcompare_pos.
  destruct (Z.compare_spec e1 e2); [|lia|done].
  destruct (Pos.compare_spec m1 m2); [lia|lia|done].
Qed.

Lemma SFltb_pos_elim m1 e1 m2 e2 :
  SFltb (S754_finite false m1 e1) (S754_finite false m2 e2) = true →
  e1 < e2 ∨ (e1 = e2 ∧ Z.pos m1 < Z.pos m2).
Proof.
  unfold SFltb. rewrite SFcompare_pos.
  destruct (Z.compare_spec e1 e2); [|lia|done].
  destruct (Pos.compare_spec m1 m2); [done|lia|done].
Qed.

(** *** Conversions of integers to [float64] *)

Lemma Zdigits2_bound_63 p : Z.pos p < 2 ^ 63 → Z.pos (digits2_pos p) ≤ 63.
Proof.
  intros Hp. pose proof (digits2_pos_bounds p) as [Hlo _].
  destruct (Z_le_gt_dec (Z.pos (digits2_pos p)) 63) as [|Hgt]; [done|].
  exfalso. assert (2 ^ 63 ≤ 2 ^ (Z.pos (digits2_pos p) - 1))
    by (apply Z.pow_le_mono_r; lia). lia.
Qed.

(** A non-zero [int] converts to a normal [float64] of its sign. *)
Lemma f64_of_int_pos (p : positive) :
  Z.pos p < 2 ^ 63 →
  ∃ m e, f64.of_int (Z.pos p) = S754_finite false m e
         ∧ Z.pos (digits2_pos m) = 53
         ∧ Z.pos (digits2_pos p) - 53 ≤ e ≤ 11.
Proof.
  intros Hp. pose proof (Zdigits2_bound_63 p Hp) as Hd.
  assert (Hd1 : 1 ≤ Z.pos (digits2_pos p)) by lia.
  destruct (binary_round_normal 53 1024 ltac:(lia) false p 0)
    as (m & e & H1 & H2 & H3); unfold emin; try lia.
  exists m, e. split; [exact H1|]. split; [exact H2|]. lia.
Qed.

Lemma f64_of_int_neg (p : positive) :
  Z.pos p ≤ 2 ^ 63 →
  ∃ m e, f64.of_int (Z.neg p) = S754_finite true m e
         ∧ Z.pos (digits2_pos m) = 53 ∧ -52 ≤ e ≤ 12.
Proof.
  intros Hp.
  assert (Hd : Z.pos (digits2_pos p) ≤ 64).
  { pose proof (digits2_pos_bounds p) as [Hlo _].
    destruct (Z_le_gt_dec (Z.pos (digits2_pos p)) 64) as [|Hgt]; [done|].
    exfalso. assert (2 ^ 64 ≤ 2 ^ (Z.pos (digits2_pos p) - 1))
      by (apply Z.pow_le_mono_r; lia). lia. }
  assert (Hd1 : 1 ≤ Z.pos (digits2_pos p)) by lia.
  destruct (binary_round_normal 53 1024 ltac:(lia) true p 0)
    as (m & e & H1 & H2 & H3); unfold emin; try lia.
  exists m, e. split; [exact H1|]. split; [exact H2|]. lia.
Qed.

Lemma f64_normal_valid m e :
  Z.pos (digits2_pos m) = 53 → -1074 ≤ e ≤ 971 →
  f64.valid (S754_finite false m e) = true.
Proof.
  intros Hm He.
  unfold f64.valid, f64.prec, f64.emax, valid_binary, bounded,
    canonical_mantissa, fexp, emin.
  rewrite Hm. apply andb_true_intro. split.
  - apply Z.eqb_eq. lia.
  - apply Z.leb_le. lia.
Qed.

(** *** [math.Max] against one *)

Lemma Max_one_of_int (n : Z) :
  - 2 ^ 63 ≤ n < 2 ^ 63 →
  math.Max (f64.of_int n) f64.one = f64.of_int (Z.max n 1).
Proof.
  intros Hn. destruct n as [|p|p].
  - reflexivity.
  - replace (Z.max (Z.pos p) 1) with (Z.pos p) by lia.
    destruct (f64_of_int_pos p) as (m & e & -> & Hm & He); [lia|].
    assert (1 ≤ Z.pos (digits2_pos p)) by lia.
    pose proof (digits2_pos_bounds m) as [Hlo _]. rewrite Hm in Hlo.
    change (2 ^ (53 - 1)) with 4503599627370496 in Hlo.
    unfold math.Max, f64.one.
    destruct (SFltb (S754_finite false 4503599627370496 (-52))
                    (S754_finite false m e)) eqn:Hlt; [done|].
    destruct (Z.eq_dec e (-52)) as [->|Hne].
    + destruct (Z.eq_dec (Z.pos m) 4503599627370496) as [Heq|Hneq].
      * injection Heq as ->. reflexivity.
      * rewrite SFltb_pos_intro in Hlt; [done|]. right. lia.
    + rewrite SFltb_pos_intro in Hlt; [done|]. left. lia.
  - replace (Z.max (Z.neg p) 1) with 1 by lia.
    destruct (f64_of_int_neg p) as (m & e & -> & _); [lia|]. reflexivity.
Qed.

(** *** Exact quotients *)

Lemma div_eucl_exact a b q : 0 < b -> a = q * b -> Z.div_eucl a b = (q, 0).
Proof.
  intros Hb Ha. pose proof (Z.div_eucl_eq a b ltac:(lia)) as Heq.
  pose proof (Z.mod_pos_bound a b Hb) as Hmod. unfold Z.modulo in Hmod.
  destruct (Z.div_eucl a b) as [q' r']. simpl in *.
  assert (q' = q) by nia. subst q'. f_equal. nia.
Qed.

Lemma f64_div_self s m e :
  f64.div (S754_finite s m e) (S754_finite s m e) = f64.one.
Proof.
  unfold f64.div, SFdiv, SFdiv_core_binary.
  replace (Zdigits2 (Z.pos m) + e - (Zdigits2 (Z.pos m) + e)) with 0 by lia.
  replace (e - e) with 0 by lia.
  change (Z.min (fexp f64.prec f64.emax 0) 0) with (-53).
  change (0 - -53) with 53.
  cbv iota beta.
  rewrite (div_eucl_exact _ (Z.pos m) (2 ^ 53)); [|lia|].
  - rewrite xorb_nilpotent. unfold new_location.
    destruct (Z.even (Z.pos m)); reflexivity.
  - rewrite Z.shiftl_mul_pow2 by lia. lia.
Qed.

Lemma f64_div_one s m e :
  Z.pos (digits2_pos m) = 53 → -1073 ≤ e ≤ 971 →
  f64.div (S754_finite s m e) f64.one = S754_finite s m e.
Proof.
  intros Hm He. unfold f64.div, f64.one, SFdiv, SFdiv_core_binary.
  cbn [Zdigits2]. rewrite Hm.
  change (Z.pos (digits2_pos 4503599627370496)) with 53.
  replace (53 + e - (53 + -52)) with (e + 52) by lia.
  unfold fexp, emin, f64.prec, f64.emax.
  rewrite Z.max_l by lia. rewrite Z.min_l by lia.
  replace (e - -52 - (e + 52 - 53)) with 53 by lia.
  cbv iota beta.
  rewrite (div_eucl_exact _ _ (Z.pos m~0)); [|lia|].
  2:{ rewrite Z.shiftl_mul_pow2 by lia. rewrite Pos2Z.inj_xO. lia. }
  change (new_location 4503599627370496 0) with loc_Exact.
  rewrite xorb_false_r.
  unfold binary_round_aux, shr_fexp, fexp, emin. cbn [Zdigits2 digits2_pos].
  rewrite Pos2Z.inj_succ, Hm.
  rewrite Z.max_l by lia.
  replace (Z.succ 53 + (e + 52 - 53) - 53 - (e + 52 - 53)) with 1 by lia.
  cbn [shr shr_record_of_loc SpecFloat.iter_pos shr_1 shr_m loc_of_shr_record
       round_nearest_even Zdigits2].
  cbn [orb round_nearest_even Zdigits2].
  rewrite Hm. rewrite Z.max_l by lia.
  replace (53 + (e + 52 - 53 + 1) - 53 - (e + 52 - 53 + 1)) with 0 by lia.
  cbn [shr shr_m].
  replace (e + 52 - 53 + 1) with e by lia.
  rewrite (proj2 (Z.leb_le _ _)) by lia. reflexivity.
Qed.

(** *** What [LogRange] gives *)

Lemma f64_valid_normal m e :
  f64.valid (S754_finite false m e) = true → -1074 < e →
  Z.pos (digits2_pos m) = 53.
Proof.
  unfold f64.valid, f64.prec, f64.emax, valid_binary, bounded,
    canonical_mantissa, fexp, emin.
  intros Hv He. apply andb_prop in Hv as [Hc _]. apply Z.eqb_eq in Hc. lia.
Qed.

Lemma LogRange_normal (Log : float64 → float64) m e :
  LogRange Log → Z.pos (digits2_pos m) = 53 → -51 ≤ e ≤ 971 →
  ∃ m' e', Log (S754_finite false m e) = S754_finite false m' e'
           ∧ Z.pos (digits2_pos m') = 53 ∧ -53 ≤ e' ≤ -43.
Proof.
  intros HLog Hm He.
  pose proof (digits2_pos_bounds m) as [Hlo _]. rewrite Hm in Hlo.
  change (2 ^ (53 - 1)) with 4503599627370496 in Hlo.
  destruct (HLog (S754_finite false m e)) as (Hv & Hge & Hlt).
  - apply f64_normal_valid; [done|lia].
  - apply SFleb_pos_intro. lia.
  - reflexivity.
  - destruct (Log (S754_finite false m e)) as [s'|s'| |s' m' e'];
      try discriminate.
    { destruct s'; discriminate. }
    destruct s'; [discriminate|].
    apply SFleb_pos_elim in Hge. apply SFltb_pos_elim in Hlt.
    assert (Hm' : Z.pos (digits2_pos m') = 53)
      by (apply (f64_valid_normal m' e'); [done|lia]).
    pose proof (digits2_pos_bounds m') as [Hlo' _]. rewrite Hm' in Hlo'.
    change (2 ^ (53 - 1)) with 4503599627370496 in Hlo'.
    exists m', e'. split; [done|]. split; [done|]. lia.
Qed.

Lemma f32_of_f64_normal m e :
  Z.pos (digits2_pos m) = 53 → -53 ≤ e ≤ -43 →
  ∃ m' e', f32.of_f64 (S754_finite false m e) = S754_finite false m' e'
           ∧ Z.pos (digits2_pos m') = 24 ∧ -24 ≤ e' ≤ -13.
Proof.
  intros Hm He. unfold f32.of_f64, f32.prec, f32.emax.
  destruct (binary_round_normal 24 128 ltac:(lia) false m e)
    as (m' & e' & H1 & H2 & H3); unfold emin; rewrite ?Hm; try lia.
  exists m', e'. rewrite Hm in H3. split; [done|]. split; [done|]. lia.
Qed.

(** One times a normal [float32] of moderate size is a positive finite
    number. *)
Lemma f32_mul_one_normal m e :
  Z.pos (digits2_pos m) = 24 → -24 ≤ e ≤ -13 →
  ∃ m' e', f32.mul (S754_finite false 8388608 (-23)) (S754_finite false m e)
           = S754_finite false m' e'.
Proof.
  intros Hm He. unfold f32.mul, SFmul. cbn [xorb].
  pose proof (digits2_pos_bounds m) as [Hlo Hhi]. rewrite Hm in Hlo, Hhi.
  assert (Hd : Z.pos (digits2_pos (8388608 * m)) = 47).
  { apply digits2_pos_unique. rewrite Pos2Z.inj_mul.
    change (2 ^ (47 - 1)) with (8388608 * 2 ^ (24 - 1)).
    change (2 ^ 47) with (8388608 * 2 ^ 24). lia. }
  destruct (binary_round_aux_normal f32.prec f32.emax ltac:(done) false
              (8388608 * m) (-23 + e) loc_Exact)
    as (m' & e' & H1 & _); unfold emin, f32.prec, f32.emax; rewrite ?Hd;
    try lia.
  by exists m', e'.
Qed.

Lemma stepLog_LogOne : LogOne stepLog.
Proof. reflexivity. Qed.

Lemma stepLog_LogRange : LogRange stepLog.
Proof. intros x _ Hx _. unfold stepLog. rewrite Hx. done. Qed.

(** ** The inverse document frequency *)

(** Dividing a converted [int] by one changes nothing. *)
Lemma f64_div_of_int_one (n : Z) :
  - 2 ^ 63 ≤ n < 2 ^ 63 → f64.div (f64.of_int n) f64.one = f64.of_int n.
Proof.
  intros Hn. destruct n as [|p|p].
  - reflexivity.
  - destruct (f64_of_int_pos p) as (m & e & -> & Hm & He); [lia|].
    assert (1 ≤ Z.pos (digits2_pos p)) by lia.
    apply f64_div_one; [done|lia].
  - destruct (f64_of_int_neg p) as (m & e & -> & Hm & He); [lia|].
    apply f64_div_one; [done|lia].
Qed.

Lemma digits2_pos_ge_2 (p : positive) : 1 < Z.pos p → 2 ≤ Z.pos (digits2_pos p).
Proof.
  intros Hp. pose proof (digits2_pos_bounds p) as [_ Hhi].
  destruct (Z_le_gt_dec 2 (Z.pos (digits2_pos p))) as [|Hlt]; [done|].
  exfalso. assert (Hd : Z.pos (digits2_pos p) = 1) by lia.
  rewrite Hd in Hhi. simpl in Hhi. lia.
Qed.

(** The logarithm of a document count above one, once in [float32], is a
    positive finite number. *)
Lemma f32_Log_of_int_pos (Log : float64 → float64) (n : Z) :
  LogRange Log → 1 < n < 2 ^ 63 →
  ∃ m e, f32.of_f64 (Log (f64.of_int n)) = S754_finite false m e.
Proof.
  intros HLog Hn. destruct n as [|p|p]; [lia| |lia].
  destruct (f64_of_int_pos p) as (m & e & -> & Hm & He); [lia|].
  pose proof (digits2_pos_ge_2 p ltac:(lia)) as Hd.
  destruct (LogRange_normal Log m e HLog Hm) as (m' & e' & -> & Hm' & He');
    [lia|].
  destruct (f32_of_f64_normal m' e' Hm' He') as (m2 & e2 & H2 & _).
  by exists m2, e2.
Qed.

(** The quotient of a positive count by itself, guarded or not, is one. *)
Lemma f64_div_Max_self (n : Z) :
  1 ≤ n < 2 ^ 63 →
  f64.div (f64.of_int n) (math.Max (f64.of_int n) f64.one) = f64.one.
Proof.
  intros Hn. rewrite Max_one_of_int by lia.
  replace (Z.max n 1) with n by lia.
  destruct n as [|p|p]; [lia| |lia].
  destruct (f64_of_int_pos p) as (m & e & -> & _); [lia|].
  apply f64_div_self.
Qed.

Lemma f32_mul_zero_not_pos (x : float32) :
  SFltb f32.zero (f32.mul x (S754_zero false)) = false.
Proof. destruct x as [[|]|[|]| |[|] m e]; reflexivity. Qed.

(** ** The batch index builder *)

Section BuilderFacts.
Variable Log : float64 → float64.

(** The row of a document holds a term exactly when the document holds
    it and its tf-idf is above zero. *)
Lemma tfidfRow_lookup (table : gmap string (gmap (list rune) Z))
    (document : gmap (list rune) Z) (term : list rune) :
  builder.tfidfRow Log table document !! term
  = match document !! term with
    | Some count =>
      if SFltb f32.zero (builder.tfidfOf Log table document term count)
      then Some (builder.tfidfOf Log table document term count)
      else None
    | None => None
    end.
Proof.
  revert term. unfold builder.tfidfRow.
  refine (map_fold_weak_ind
            (fun (r : gmap (list rune) float32) (m : gmap (list rune) Z) =>
               ∀ term, r !! term
               = match m !! term with
                 | Some count =>
                   if SFltb f32.zero
                        (builder.tfidfOf Log table document term count)
                   then Some (builder.tfidfOf Log table document term count)
                   else None
                 | None => None
                 end) _ _ _ _ document).
  - intros term. by rewrite !lookup_empty.
  - intros i x m r Hfresh IH term. cbv zeta.
    destruct (decide (i = term)) as [->|Hne].
    + rewrite lookup_insert_eq.
      destruct (SFltb f32.zero (builder.tfidfOf Log table document term x)).
      * by rewrite lookup_insert_eq.
      * by rewrite IH, Hfresh.
    + rewrite (lookup_insert_ne m) by done. rewrite <- IH.
      destruct (SFltb f32.zero (builder.tfidfOf Log table document i x));
        [by rewrite lookup_insert_ne | done].
Qed.

Lemma calculateTFIDF_lookup (table : gmap string (gmap (list rune) Z))
    (path : string) :
  builder.calculateTFIDF Log table !! path
  = builder.tfidfRow Log table <$> table !! path.
Proof.
  revert path. unfold builder.calculateTFIDF.
  refine (map_fold_weak_ind
            (fun (r : gmap string (gmap (list rune) float32))
                 (m : gmap string (gmap (list rune) Z)) =>
               ∀ path, r !! path = builder.tfidfRow Log table <$> m !! path)
            _ _ _ _ table).
  - intros path. by rewrite !lookup_empty.
  - intros i x m r Hfresh IH path. destruct (decide (i = path)) as [->|Hne].
    + by rewrite !lookup_insert_eq.
    + rewrite !lookup_insert_ne by done. apply IH.
Qed.

(** The idf of a term that every one of [n >= 1] documents holds. *)
Lemma calculateIDF_all_docs (n : Z) :
  LogOne Log → 1 ≤ n < 2 ^ 63 →
  builder.calculateIDF Log n n = S754_zero false.
Proof.
  intros HLog Hn. unfold builder.calculateIDF.
  rewrite f64_div_Max_self by done. rewrite HLog. reflexivity.
Qed.

End BuilderFacts.

Lemma docsWith_all (term : list rune)
    (table : gmap string (gmap (list rune) Z)) :
  (∀ p d, table !! p = Some d → is_Some (d !! term)) →
  docsWith term table = size table.
Proof.
  intros Hall. unfold docsWith. rewrite map_filter_id; [done|].
  intros p d Hp. simpl. by eapply Hall.
Qed.

Lemma map_size_1_lookup {A : Type} (m : gmap string A) p q x y :
  size m = 1%nat → m !! p = Some x → m !! q = Some y → p = q.
Proof.
  intros Hsize Hp Hq. destruct (decide (p = q)) as [|Hne]; [done|].
  exfalso. pose proof (map_size_delete p m) as Hdel. rewrite Hp, Hsize in Hdel.
  simpl in Hdel. apply map_size_empty_inv in Hdel.
  assert (Hq' : delete p m !! q = Some y) by (by rewrite lookup_delete_ne).
  by rewrite Hdel, lookup_empty in Hq'.
Qed.

(** ** Ranking *)

Lemma SFltb_nan_r (x : float32) : SFltb x S754_nan = false.
Proof. destruct x as [[|]|[|]| |[|] m e]; reflexivity. Qed.

Lemma calculateTF_empty (term : list rune) : calculateTF term ∅ = S754_nan.
Proof.
  unfold calculateTF, lookupInt. rewrite map_fold_empty, lookup_empty.
  reflexivity.
Qed.

(** Once a NaN has entered the sum of [search] it stays. *)
Lemma rankOf_empty (Log : float64 → float64) (m : Model)
    (token : list rune) (tokens : list (list rune)) :
  rankOf Log m (token :: tokens) ∅ = S754_nan.
Proof.
  unfold rankOf. cbn [fold_left]. rewrite calculateTF_empty.
  change (f32.add f32.zero (f32.mul S754_nan ?x)) with S754_nan.
  induction tokens as [|t ts IH]; [reflexivity | exact IH].
Qed.

(** The idf of the example: a term held by one document out of three. *)
Lemma calculateIDF_example (Log : float64 → float64) :
  LogRange Log →
  ∃ m e, calculateIDF Log 1 3 = S754_finite false m e
         ∧ Z.pos (digits2_pos m) = 24 ∧ -24 ≤ e ≤ -13.
Proof.
  intros HLog. unfold calculateIDF.
  change (f64.div (f64.of_int 3) (math.Max (f64.of_int 1) f64.one))
    with (S754_finite false 6755399441055744 (-51)).
  destruct (LogRange_normal Log 6755399441055744 (-51) HLog)
    as (m & e & -> & Hm & He); [reflexivity|lia|].
  by apply f32_of_f64_normal.
Qed.

(** ** The order of the floating-point numbers *)

Ltac float_cases :=
  repeat match goal with
         | x : spec_float |- _ => destruct x as [[|]|[|]| |[|] ? ?]
         end.

Ltac cmp_cases :=
  repeat match goal with
         | |- context [Z.compare ?a ?b] => destruct (Z.compare_spec a b)
         | |- context [Pos.compare_cont Eq ?a ?b] =>
             change (Pos.compare_cont Eq a b) with (Pos.compare a b);
             destruct (Pos.compare_spec a b)
         | H : context [Z.compare ?a ?b] |- _ => destruct (Z.compare_spec a b)
         | H : context [Pos.compare_cont Eq ?a ?b] |- _ =>
             change (Pos.compare_cont Eq a b) with (Pos.compare a b) in H;
             destruct (Pos.compare_spec a b)
         end.

Lemma SFltb_irrefl x : SFltb x x = false.
Proof.
  unfold SFltb, SFcompare. float_cases; try reflexivity;
    rewrite Z.compare_refl;
    change (Pos.compare_cont Eq ?a ?b) with (Pos.compare a b);
    rewrite Pos.compare_refl; reflexivity.
Qed.

Lemma SFltb_trans x y z :
  SFltb x y = true → SFltb y z = true → SFltb x z = true.
Proof.
  unfold SFltb, SFcompare. float_cases; try done;
    intros H1 H2; cmp_cases; subst; simpl in *; try done; try lia.
Qed.

Lemma SFltb_neg_trans x y z :
  notNaN x → notNaN y → notNaN z →
  SFltb x y = false → SFltb y z = false → SFltb x z = false.
Proof.
  unfold notNaN, SFltb, SFcompare. float_cases; try done;
    intros _ _ _ H1 H2; cmp_cases; subst; simpl in *; try done; try lia.
Qed.

Lemma SFltb_false_SFleb x y :
  notNaN x → notNaN y → SFltb x y = false → SFleb y x = true.
Proof.
  unfold notNaN, SFltb, SFleb, SFcompare. float_cases; try done;
    intros _ _ H1; cmp_cases; subst; simpl in *; try done; try lia.
Qed.

(** ** Sorting *)

Section InsertionSort.
Context {A : Type} (P : A → Prop) (less : A → A → bool).
Hypothesis Hless : StrictWeakOn P less.

Lemma sink_perm (x : A) (before : list A) : sink less x before ≡ₚ x :: before.
Proof.
  induction before as [|y ys IH]; simpl; [done|].
  destruct (less x y); [|done].
  rewrite IH. apply perm_swap.
Qed.

Lemma sink_sorted (x : A) (before : list A) :
  P x → Forall P before →
  StronglySorted (fun a b => less a b = false) before →
  StronglySorted (fun a b => less a b = false) (sink less x before).
Proof.
  destruct Hless as (Hirr & Htr & Hneg).
  intros Hx HP Hs. induction Hs as [|y ys Hs IH Hy]; simpl.
  - repeat constructor.
  - apply Forall_cons in HP as [HPy HPys].
    destruct (less x y) eqn:Hxy.
    + constructor; [by apply IH|].
      rewrite sink_perm. constructor; [|done].
      destruct (less y x) eqn:Hyx; [|done].
      rewrite <- (Hirr x Hx). symmetry. by apply (Htr x y x).
    + constructor; [by constructor|].
      constructor; [done|].
      rewrite Forall_forall in Hy, HPys |- *. intros z Hz.
      apply (Hneg x y z); auto.
Qed.

Lemma insertionSort_perm (l : list A) : insertionSort less l ≡ₚ l.
Proof.
  unfold insertionSort.
  assert (H : ∀ before, fold_left (fun b x => sink less x b) l before
                        ≡ₚ rev l ++ before).
  { induction l as [|x xs IH]; intros before; simpl; [done|].
    by rewrite IH, sink_perm, <- app_assoc. }
  rewrite <- Permutation_rev, H, app_nil_r. symmetry. apply Permutation_rev.
Qed.

Lemma insertionSort_sorted (l : list A) :
  Forall P l →
  StronglySorted (fun a b => less b a = false) (insertionSort less l).
Proof.
  intros HP. unfold insertionSort.
  assert (H : ∀ before, Forall P l → Forall P before →
                StronglySorted (fun a b => less a b = false) before →
                StronglySorted (fun a b => less a b = false)
                  (fold_left (fun b x => sink less x b) l before)).
  { clear HP. induction l as [|x xs IH]; intros before Hl Hb Hs; simpl; [done|].
    apply Forall_cons in Hl as [Hx Hxs]. apply IH; [done| |by apply sink_sorted].
    rewrite sink_perm. by constructor. }
  specialize (H [] HP ltac:(constructor) ltac:(constructor)).
  revert H. generalize (fold_left (fun b x => sink less x b) l []).
  intros l' Hs. induction Hs as [|y ys Hs IH Hy]; simpl; [constructor|].
  apply StronglySorted_app_2; [|done|repeat constructor].
  intros a b Ha Hb. apply list_elem_of_In, in_rev, list_elem_of_In in Ha.
  apply list_elem_of_singleton in Hb as ->.
  rewrite Forall_forall in Hy. by apply Hy.
Qed.

End InsertionSort.

Lemma insertionSort_SortSpec {A : Type} : SortSpec (@insertionSort A).
Proof.
  split.
  - intros less l. apply insertionSort_perm.
  - intros P less l Hless HP. by apply (insertionSort_sorted P).
Qed.

(** [Less] in the reverse direction is an ordering of the results whose
    rank is a number. *)
Lemma Reverse_Less_StrictWeakOn :
  StrictWeakOn (fun r => notNaN (Rank r)) (Reverse Less).
Proof.
  unfold Reverse, Less. split; [|split].
  - intros a _. apply SFltb_irrefl.
  - intros a b c _ _ _ Hab Hbc. by apply (SFltb_trans _ (Rank b)).
  - intros a b c Ha Hb Hc Hab Hbc. by apply (SFltb_neg_trans _ (Rank b)).
Qed.

(** ** What [search] returns when every rank is a number *)

Lemma StronglySorted_impl_on {A : Type} (P : A → Prop) (R R' : A → A → Prop)
    (l : list A) :
  (∀ a b, P a → P b → R a b → R' a b) → Forall P l →
  StronglySorted R l → StronglySorted R' l.
Proof.
  intros HR HP Hs. induction Hs as [|x xs Hs IH Hx]; [constructor|].
  apply Forall_cons in HP as [HPx HPxs]. constructor; [by apply IH|].
  rewrite Forall_forall in Hx, HPxs |- *. intros y Hy. apply HR; auto.
Qed.

Section SearchCorrect.
Variable T : unicode.tables.
Variable Log : float64 → float64.
Variable Sort :
  (SearchResult → SearchResult → bool) → list SearchResult → list SearchResult.
Hypothesis HSort : SortSpec Sort.

(** One result for each document of the model, whatever its rank. *)
Lemma search_one_result_per_document (order : list (string * gmap (list rune) Z))
    (m : Model) (query : list rune) (tokens : list (list rune)) :
  order ≡ₚ map_to_list (TF m) → tokenize T query = Ok tokens →
  ∃ results, search T Log Sort order m query = Ok results
             ∧ results ≡ₚ resultsOf Log m tokens (map_to_list (TF m)).
Proof.
  intros Horder Htok. unfold search. rewrite Htok. cbn [mbind res_bind].
  eexists. split; [reflexivity|].
  rewrite (proj1 HSort). unfold resultsOf. by rewrite Horder.
Qed.

(** The results are in descending order of rank when no rank is NaN. *)
Lemma search_sorted (order : list (string * gmap (list rune) Z))
    (m : Model) (query : list rune) (tokens : list (list rune)) :
  order ≡ₚ map_to_list (TF m) → tokenize T query = Ok tokens →
  (∀ path tfTable, TF m !! path = Some tfTable →
                   notNaN (rankOf Log m tokens tfTable)) →
  ∃ results, search T Log Sort order m query = Ok results
             ∧ StronglySorted (fun a b => SFleb (Rank b) (Rank a) = true)
                 results.
Proof.
  intros Horder Htok Hnum. unfold search. rewrite Htok. cbn [mbind res_bind].
  eexists. split; [reflexivity|].
  assert (HP : Forall (fun r => notNaN (Rank r)) (resultsOf Log m tokens order)).
  { unfold resultsOf. rewrite Forall_forall. intros r Hr.
    apply list_elem_of_fmap in Hr as ([path tfTable] & -> & Hin). simpl.
    apply (Hnum path). apply elem_of_map_to_list. by rewrite <- Horder. }
  apply (StronglySorted_impl_on (fun r => notNaN (Rank r))
           (fun a b => Reverse Less b a = false)).
  - intros a b Ha Hb Hab. unfold Reverse, Less in Hab.
    by apply SFltb_false_SFleb.
  - by rewrite (proj1 HSort).
  - apply (proj2 HSort (fun r => notNaN (Rank r))); [|done].
    apply Reverse_Less_StrictWeakOn.
Qed.

End SearchCorrect.

(** Both hold of [search] with the insertion sort of the [sort] package. *)
Corollary search_sorted_insertionSort (T : unicode.tables)
    (Log : float64 → float64) (order : list (string * gmap (list rune) Z))
    (m : Model) (query : list rune) (tokens : list (list rune)) :
  order ≡ₚ map_to_list (TF m) → tokenize T query = Ok tokens →
  (∀ path tfTable, TF m !! path = Some tfTable →
                   notNaN (rankOf Log m tokens tfTable)) →
  ∃ results, search T Log insertionSort order m query = Ok results
             ∧ results ≡ₚ resultsOf Log m tokens (map_to_list (TF m))
             ∧ StronglySorted (fun a b => SFleb (Rank b) (Rank a) = true)
                 results.
Proof.
  intros Horder Htok Hnum.
  destruct (search_one_result_per_document T Log insertionSort
              insertionSort_SortSpec order m query tokens Horder Htok)
    as (results & Hrun & Hperm).
  destruct (search_sorted T Log insertionSort insertionSort_SortSpec
              order m query tokens Horder Htok Hnum)
    as (results' & Hrun' & Hsorted).
  rewrite Hrun in Hrun'. injection Hrun' as <-.
  by exists results.
Qed.

(** ** The order of [range] over a map does not matter

    The loops over a map are written above with [map_fold], which visits
    the entries in one fixed order, while Go visits them in an order of
    its choosing.  Each loop body commutes with itself on two different
    keys, so every order gives the same result. *)

Lemma range_any_order `{Countable K} {A B : Type} (f : K → A → B → B) (b : B)
    (m : gmap K A) (order : list (K * A)) :
  (∀ k1 a1 k2 a2 acc, k1 ≠ k2 →
     f k1 a1 (f k2 a2 acc) = f k2 a2 (f k1 a1 acc)) →
  order ≡ₚ map_to_list m →
  fold_left (fun acc kv => f kv.1 kv.2 acc) order b = map_fold f b m.
Proof.
  intros Hcomm Horder. rewrite map_fold_foldr, <- fold_left_rev_right.
  assert (Hperm : rev order ≡ₚ map_to_list m)
    by (by rewrite <- Permutation_rev).
  assert (Hnd : NoDup (rev order).*1)
    by (rewrite Hperm; apply NoDup_fst_map_to_list).
  revert Hperm. generalize (map_to_list m).
  generalize dependent (rev order). clear order Horder.
  intros l1 Hnd l2 Hperm.
  assert (Heq : ∀ l, foldr (fun y x => f y.1 y.2 x) b l = foldr (uncurry f) b l).
  { induction l as [|[k a] l IH]; simpl; [done|]. by rewrite IH. }
  rewrite Heq.
  apply (foldr_permutation (=) (uncurry f) b); [|done].
  intros j1 [k1 a1] j2 [k2 a2] acc Hj H1 H2. simpl. apply Hcomm.
  intros ->. apply Hj.
  apply (NoDup_lookup l1.*1 j1 j2 k2); [done|..];
    rewrite list_lookup_fmap; [by rewrite H1 | by rewrite H2].
Qed.

Lemma wrap_add_l a c : wrap (wrap a + c) = wrap (a + c).
Proof.
  unfold wrap.
  replace ((a + 2 ^ 63) `mod` 2 ^ 64 - 2 ^ 63 + c + 2 ^ 63)
    with ((a + 2 ^ 63) `mod` 2 ^ 64 + c) by lia.
  rewrite Zplus_mod_idemp_l. f_equal. f_equal. lia.
Qed.

(** [for _, v := range tfTable { sumOfTerms += v }] *)
Lemma sumOfTerms_any_order (tfTable : gmap (list rune) Z)
    (order : list (list rune * Z)) :
  order ≡ₚ map_to_list tfTable →
  fold_left (fun sum kv => wrap (sum + kv.2)) order 0
  = map_fold (fun _ v sum => wrap (sum + v)) 0 tfTable.
Proof.
  intros Horder.
  apply (range_any_order (fun (_ : list rune) v sum => wrap (sum + v)));
    [|done].
  intros _ a1 _ a2 acc _. rewrite !wrap_add_l. f_equal. lia.
Qed.

Lemma incr_commute `{Countable K} (k1 k2 : K) (m : gmap K Z) :
  k1 ≠ k2 → incr k1 (incr k2 m) = incr k2 (incr k1 m).
Proof.
  intros Hne. unfold incr at 1 3.
  rewrite !lookupInt_incr_ne by done. unfold incr.
  by apply insert_insert_ne.
Qed.

(** [for t := range tf { m.DF[t] += 1 }] *)
Lemma bumpDF_any_order (tf df : gmap (list rune) Z)
    (order : list (list rune * Z)) :
  order ≡ₚ map_to_list tf →
  fold_left (fun df kv => incr kv.1 df) order df = bumpDF tf df.
Proof.
  intros Horder. unfold bumpDF.
  apply (range_any_order (fun (t : list rune) (_ : Z) df => incr t df));
    [|done].
  intros k1 _ k2 _ acc Hne. by apply incr_commute.
Qed.

(** The loop of [numOfDocsWithTerm]. *)
Lemma numOfDocsWithTerm_any_order (term : list rune)
    (table : gmap string (gmap (list rune) Z))
    (order : list (string * gmap (list rune) Z)) :
  order ≡ₚ map_to_list table →
  fold_left (fun n (kv : string * gmap (list rune) Z) =>
               match kv.2 !! term with
               | Some _ => wrap (n + 1)
               | None => n
               end) order 0
  = builder.numOfDocsWithTerm term table.
Proof.
  intros Horder. unfold builder.numOfDocsWithTerm.
  apply (range_any_order
           (fun (_ : string) (document : gmap (list rune) Z) n =>
              match document !! term with
              | Some _ => wrap (n + 1)
              | None => n
              end)); [|done].
  intros _ a1 _ a2 acc _.
  destruct (a1 !! term), (a2 !! term); done.
Qed.

(** The two loops of [calculateTFIDF]. *)
Lemma tfidfRow_any_order (Log : float64 → float64)
    (table : gmap string (gmap (list rune) Z)) (document : gmap (list rune) Z)
    (order : list (list rune * Z)) :
  order ≡ₚ map_to_list document →
  fold_left (fun (row : gmap (list rune) float32) kv =>
               if SFltb f32.zero
                    (builder.tfidfOf Log table document kv.1 kv.2)
               then <[kv.1 := builder.tfidfOf Log table document kv.1 kv.2]> row
               else row) order ∅
  = builder.tfidfRow Log table document.
Proof.
  intros Horder. unfold builder.tfidfRow.
  apply (range_any_order
           (fun term count (row : gmap (list rune) float32) =>
              let tfidf := builder.tfidfOf Log table document term count in
              if SFltb f32.zero tfidf then <[term := tfidf]> row else row));
    [|done].
  intros k1 a1 k2 a2 acc Hne. cbv zeta.
  destruct (SFltb f32.zero (builder.tfidfOf Log table document k1 a1)),
           (SFltb f32.zero (builder.tfidfOf Log table document k2 a2));
    try done.
  by apply insert_insert_ne.
Qed.

Lemma calculateTFIDF_any_order (Log : float64 → float64)
    (table : gmap string (gmap (list rune) Z))
    (order : list (string * gmap (list rune) Z)) :
  order ≡ₚ map_to_list table →
  fold_left (fun (t : gmap string (gmap (list rune) float32)) kv =>
               <[kv.1 := builder.tfidfRow Log table kv.2]> t) order ∅
  = builder.calculateTFIDF Log table.
Proof.
  intros Horder. unfold builder.calculateTFIDF.
  apply (range_any_order
           (fun path document (t : gmap string (gmap (list rune) float32)) =>
              <[path := builder.tfidfRow Log table document]> t)); [|done].
  intros k1 a1 k2 a2 acc Hne. by apply insert_insert_ne.
Qed.

(** ** More on the lexer *)

Section LexerMore.
Variable T : unicode.tables.

Lemma trimLeftRunes_idem s : trimLeftRunes T (trimLeftRunes T s) = trimLeftRunes T s.
Proof.
  induction s as [|r s IH]; simpl; [done|].
  destruct (unicode.IsSpace T r) eqn:E; [done|]. simpl. by rewrite E.
Qed.

Lemma trimLeftRunes_nil_iff s :
  trimLeftRunes T s = [] ↔ forallb (unicode.IsSpace T) s = true.
Proof.
  induction s as [|r s IH]; simpl; [done|].
  destruct (unicode.IsSpace T r); simpl; [done|]. split; discriminate.
Qed.

Lemma trimLeftRunes_suffix s : ∃ ws, s = ws ++ trimLeftRunes T s
                                     ∧ forallb (unicode.IsSpace T) ws = true.
Proof.
  induction s as [|r s (ws & Hs & Hws)]; simpl; [by exists []|].
  destruct (unicode.IsSpace T r) eqn:E.
  - exists (r :: ws). simpl. rewrite E. split; [by f_equal|done].
  - by exists [].
Qed.

(** [Next] looks at the trimmed input only. *)
Lemma Next_nextTrimmed l :
  Next T l = '(token, hasNext, rest) ← nextTrimmed T (trimLeftRunes T (content l));
             Ok (token, hasNext, NewLexer rest).
Proof.
  unfold Next, trimLeft, nextTrimmed. simpl.
  destruct (trimLeftRunes T (content l)) as [|c r] eqn:E; [done|].
  destruct (c =? 60).
  - unfold sliceFrom. by destruct (_ <=? _)%nat.
  - pose proof (scan_le (unicode.IsNumber T) (c :: r)) as H1.
    pose proof (scan_le (fun r => unicode.IsLetter T r || unicode.IsNumber T r)
                  (c :: r)) as H2.
    apply Nat.leb_le in H1, H2.
    destruct (unicode.IsNumber T c); [|destruct (unicode.IsLetter T c)];
      unfold chopWhile, chop; simpl content.
    + by rewrite H1.
    + by rewrite H2.
    + done.
Qed.

Lemma Next_Ok_iff l token hasNext l' :
  Next T l = Ok (token, hasNext, l')
  ↔ nextTrimmed T (trimLeftRunes T (content l)) = Ok (token, hasNext, content l').
Proof.
  rewrite Next_nextTrimmed.
  destruct (nextTrimmed T (trimLeftRunes T (content l))) as [[[t b] r]| |];
    simpl; [|split; discriminate..].
  destruct l' as [s]. simpl. split; intros [= -> -> ->]; done.
Qed.

Lemma Next_Panic_nextTrimmed l :
  Next T l = Panic ↔ nextTrimmed T (trimLeftRunes T (content l)) = Panic.
Proof.
  rewrite Next_nextTrimmed.
  destruct (nextTrimmed T (trimLeftRunes T (content l))) as [[[t b] r]| |];
    simpl; split; done.
Qed.

Lemma drop_S_tail {A : Type} (n : nat) : ∀ (l : list A) x t,
  drop n l = x :: t → drop (S n) l = t.
Proof.
  induction n as [|n IH]; intros [|y l] x t; simpl; try discriminate.
  - by intros [= _ ->].
  - apply IH.
Qed.

Lemma scan_forallb p body x rest :
  forallb p body = true → p x = false →
  scan p (body ++ x :: rest) = length body.
Proof.
  intros Hbody Hx. induction body as [|b body IH]; simpl.
  - by rewrite Hx.
  - simpl in Hbody. apply andb_prop in Hbody as [Hb Hbody].
    rewrite Hb. f_equal. by apply IH.
Qed.

Lemma scan_take_drop p s :
  forallb p (take (scan p s) s) = true
  ∧ match drop (scan p s) s with
    | [] => True
    | r :: _ => p r = false
    end.
Proof.
  induction s as [|r s [IH1 IH2]]; simpl; [done|].
  destruct (p r) eqn:E; simpl; [by rewrite E|done].
Qed.

End LexerMore.

(** ** More on the loops over the tokens *)

Section TokenizeMore.
Variable T : unicode.tables.

Lemma nextTrimmed_shrinks s token rest :
  nextTrimmed T s = Ok (token, true, rest) → (length rest < length s)%nat.
Proof.
  unfold nextTrimmed. destruct s as [|c r]; [discriminate|].
  destruct (c =? 60).
  - destruct (_ <=? _)%nat eqn:Hb; [|discriminate].
    apply Nat.leb_le in Hb. intros [= _ <-]. rewrite length_drop. lia.
  - destruct (unicode.IsNumber T c) eqn:HN;
      [|destruct (unicode.IsLetter T c) eqn:HL]; intros [= _ <-].
    + rewrite length_drop. cbn [length scan]. rewrite HN. lia.
    + rewrite length_drop. cbn [length scan]. rewrite HL. cbn [orb]. lia.
    + simpl. lia.
Qed.

Lemma nextTrimmed_end s token rest :
  nextTrimmed T s = Ok (token, false, rest) → s = [].
Proof.
  unfold nextTrimmed. destruct s as [|c r]; [done|].
  destruct (c =? 60); [destruct (_ <=? _)%nat; discriminate|].
  destruct (unicode.IsNumber T c); [|destruct (unicode.IsLetter T c)];
    discriminate.
Qed.

Lemma nextTrimmed_not_Fuel s : nextTrimmed T s ≠ Fuel.
Proof.
  unfold nextTrimmed. destruct s as [|c r]; [done|].
  destruct (c =? 60); [destruct (_ <=? _)%nat; discriminate|].
  destruct (unicode.IsNumber T c); [|destruct (unicode.IsLetter T c)];
    discriminate.
Qed.

(** The tokens found so far only wait in front of those to come. *)
Lemma tokenizeLoop_acc fuel : ∀ l acc,
  tokenizeLoop T fuel l acc = app acc <$> tokenizeLoop T fuel l [].
Proof.
  induction fuel as [|fuel IH]; intros l acc; [done|].
  simpl. destruct (Next T l) as [[[tok hasNext] l']| |]; simpl; [|done..].
  destruct hasNext; simpl.
  - destruct tok as [tok|]; [|apply IH].
    rewrite (IH l' (acc ++ _)), (IH l' [_]).
    destruct (tokenizeLoop T fuel l' []); simpl; [|done..].
    by rewrite <- app_assoc.
  - by rewrite app_nil_r.
Qed.

(** More fuel than is needed changes nothing. *)
Lemma tokenizeLoop_fuel f1 : ∀ f2 l acc,
  (length (content l) < f1)%nat → (length (content l) < f2)%nat →
  tokenizeLoop T f1 l acc = tokenizeLoop T f2 l acc.
Proof.
  induction f1 as [|f1 IH]; intros [|f2] l acc H1 H2; try lia.
  simpl. destruct (Next T l) as [[[tok hasNext] l']| |] eqn:HN; simpl; [|done..].
  destruct hasNext; simpl; [|done].
  apply Next_shrinks in HN. destruct tok; apply IH; lia.
Qed.

(** [tokenize] in one step of [Next] and [tokenize] of what is left. *)
Lemma tokenize_step s :
  tokenize T s
  = tokenizeStep T (nextTrimmed T (trimLeftRunes T s)) (tokenize T).
Proof.
  unfold tokenize at 1. cbn [tokenizeLoop].
  rewrite Next_nextTrimmed. cbn [content].
  destruct (nextTrimmed T (trimLeftRunes T s)) as [[[tok hasNext] rest]| |]
    eqn:HN; simpl; [|done..].
  destruct hasNext; simpl; [|by destruct tok].
  apply nextTrimmed_shrinks in HN. pose proof (trimLeftRunes_le T s).
  destruct tok as [tok|].
  - rewrite tokenizeLoop_acc. unfold tokenize.
    rewrite (tokenizeLoop_fuel (length s) (S (length rest)))
      by (simpl; lia).
    by destruct (tokenizeLoop T _ _ []).
  - unfold tokenize. apply tokenizeLoop_fuel; simpl; lia.
Qed.

(** [tokenize] looks at the trimmed input only. *)
Lemma tokenize_trim s : tokenize T (trimLeftRunes T s) = tokenize T s.
Proof. by rewrite (tokenize_step s), tokenize_step, trimLeftRunes_idem. Qed.

(** The token loop of [indexFolder] counts the tokens of [tokenize]. *)
Lemma countLoop_tokenizeLoop fuel : ∀ l (tf : gmap (list rune) Z),
  countLoop T fuel l tf
  = (fun tokens => countAll tokens tf) <$> tokenizeLoop T fuel l [].
Proof.
  induction fuel as [|fuel IH]; intros l tf; [done|].
  simpl. destruct (Next T l) as [[[tok hasNext] l']| |]; simpl; [|done..].
  destruct hasNext; simpl; [|done].
  destruct tok as [tok|]; [|apply IH].
  rewrite IH, (tokenizeLoop_acc fuel l' [_]).
  by destruct (tokenizeLoop T fuel l' []).
Qed.

Lemma countTokens_tokenize s :
  countTokens T s = (fun tokens => countAll tokens ∅) <$> tokenize T s.
Proof. apply countLoop_tokenizeLoop. Qed.

End TokenizeMore.

(** ** Counting tokens *)

Lemma wrap_range z : - 2 ^ 63 ≤ wrap z < 2 ^ 63.
Proof.
  unfold wrap. pose proof (Z.mod_pos_bound (z + 2 ^ 63) (2 ^ 64) ltac:(lia)).
  lia.
Qed.

Lemma wrap_add_r a c : wrap (a + wrap c) = wrap (a + c).
Proof. rewrite (Z.add_comm a), wrap_add_l. f_equal. lia. Qed.

Lemma wrap_wrap z : wrap (wrap z) = wrap z.
Proof. apply wrap_small, wrap_range. Qed.

Lemma sumOfTerms_empty : sumOfTerms ∅ = 0.
Proof. unfold sumOfTerms. by rewrite map_fold_empty. Qed.

Lemma sumOfTerms_insert_fresh (k : list rune) (v : Z)
    (tf : gmap (list rune) Z) :
  tf !! k = None → sumOfTerms (<[k := v]> tf) = wrap (sumOfTerms tf + v).
Proof.
  intros Hk. unfold sumOfTerms.
  rewrite map_fold_insert_L; [done| |done].
  intros j1 j2 z1 z2 y _ _ _. rewrite !wrap_add_l. f_equal. lia.
Qed.

Lemma sumOfTerms_range (tf : gmap (list rune) Z) :
  - 2 ^ 63 ≤ sumOfTerms tf < 2 ^ 63.
Proof.
  induction tf as [|k v tf Hk IH] using map_ind.
  - rewrite sumOfTerms_empty. lia.
  - rewrite sumOfTerms_insert_fresh by done. apply wrap_range.
Qed.

(** One more token, one more in the sum of the counts. *)
Lemma sumOfTerms_incr (k : list rune) (tf : gmap (list rune) Z) :
  sumOfTerms (incr k tf) = wrap (sumOfTerms tf + 1).
Proof.
  unfold incr, lookupInt. destruct (tf !! k) as [v|] eqn:Hk; simpl.
  - rewrite <- (insert_delete_id tf k v Hk) at 2.
    rewrite <- (insert_delete_eq tf).
    rewrite !sumOfTerms_insert_fresh by apply lookup_delete_eq.
    rewrite wrap_add_r, wrap_add_l. f_equal. lia.
  - rewrite sumOfTerms_insert_fresh by done. by rewrite wrap_add_r.
Qed.

Lemma sumOfTerms_countAll (tokens : list (list rune)) :
  ∀ tf : gmap (list rune) Z,
  sumOfTerms (countAll tokens tf)
  = wrap (sumOfTerms tf + Z.of_nat (length tokens)).
Proof.
  induction tokens as [|t tokens IH]; intros tf; simpl.
  - rewrite Z.add_0_r. symmetry. apply wrap_small, sumOfTerms_range.
  - unfold countAll in *. simpl. rewrite IH, sumOfTerms_incr, wrap_add_l.
    f_equal. lia.
Qed.

Lemma countAll_lookup (t : list rune) (tokens : list (list rune)) :
  ∀ tf : gmap (list rune) Z,
  - 2 ^ 63 ≤ lookupInt tf t < 2 ^ 63 →
  lookupInt (countAll tokens tf) t
  = wrap (lookupInt tf t + Z.of_nat (occurrences t tokens)).
Proof.
  unfold occurrences.
  induction tokens as [|x tokens IH]; intros tf Hr; simpl.
  - rewrite Z.add_0_r. symmetry. by apply wrap_small.
  - unfold countAll in *. simpl. destruct (decide (x = t)) as [->|Hne].
    + rewrite filter_cons_True by done. rewrite IH.
      * rewrite lookupInt_incr_eq, wrap_add_l. f_equal. simpl length. lia.
      * rewrite lookupInt_incr_eq. apply wrap_range.
    + rewrite filter_cons_False by done. rewrite IH.
      * by rewrite lookupInt_incr_ne.
      * by rewrite lookupInt_incr_ne.
Qed.

Lemma countAll_keys (t : list rune) (tokens : list (list rune)) :
  ∀ tf : gmap (list rune) Z,
  is_Some (countAll tokens tf !! t) ↔ t ∈ tokens ∨ is_Some (tf !! t).
Proof.
  induction tokens as [|x tokens IH]; intros tf; simpl.
  - split; [by right|]. intros [H|H]; [by apply elem_of_nil in H|done].
  - unfold countAll in *. simpl. rewrite IH, elem_of_cons. unfold incr.
    destruct (decide (x = t)) as [->|Hne].
    + rewrite lookup_insert_eq. split; [by left; left|]. intros _. right.
      by eexists.
    + rewrite lookup_insert_ne by done. split.
      * intros [H|H]; [left; by right | by right].
      * intros [[H|H]|H]; [congruence | by left | by right].
Qed.

Lemma occurrences_le (t : list rune) (tokens : list (list rune)) :
  (occurrences t tokens ≤ length tokens)%nat.
Proof. unfold occurrences. apply length_filter. Qed.

(** ** Where the lexer fails *)

Lemma scan_app p (a b : list rune) :
  scan p (a ++ b)
  = if (scan p a <? length a)%nat then scan p a
    else (length a + scan p b)%nat.
Proof.
  induction a as [|x a IH]; simpl; [done|].
  destruct (p x); [|done]. rewrite IH.
  change (S (scan p a) <? S (length a))%nat with (scan p a <? length a)%nat.
  by destruct (scan p a <? length a)%nat.
Qed.

Section PanicMore.
Variable T : unicode.tables.

Lemma trimLeftRunes_keeps_lt pre post :
  ∃ pre', trimLeftRunes T (pre ++ 60 :: post) = pre' ++ 60 :: post.
Proof.
  induction pre as [|c r IH]; simpl.
  - by exists [].
  - destruct (unicode.IsSpace T c); [exact IH|]. by exists (c :: r).
Qed.

Lemma nextTrimmed_consumed y tok rest :
  nextTrimmed T y = Ok (tok, true, rest) → ∃ consumed, y = consumed ++ rest.
Proof.
  unfold nextTrimmed. destruct y as [|c r]; [discriminate|].
  destruct (c =? 60).
  - destruct (_ <=? _)%nat; [|discriminate]. intros [= _ <-].
    eexists. symmetry. apply take_drop.
  - destruct (unicode.IsNumber T c); [|destruct (unicode.IsLetter T c)];
      intros [= _ <-].
    + eexists. symmetry. apply take_drop.
    + eexists. symmetry. apply take_drop.
    + by exists [c].
Qed.

Lemma nextTrimmed_Panic y :
  nextTrimmed T y = Panic →
  ∃ body, y = 60 :: body ∧ forallb notGt body = true.
Proof.
  unfold nextTrimmed. destruct y as [|c r]; [discriminate|].
  destruct (c =? 60) eqn:Hc.
  - apply Z.eqb_eq in Hc. subst c.
    change (scan (fun r => negb (r =? 62)) (60 :: r)) with (S (scan notGt r)).
    destruct (_ <=? _)%nat eqn:Hb; [discriminate|]. intros _.
    apply Nat.leb_gt in Hb. cbn [length] in Hb. exists r. split; [done|].
    apply scan_all. pose proof (scan_le notGt r). lia.
  - destruct (unicode.IsNumber T c); [|destruct (unicode.IsLetter T c)];
      discriminate.
Qed.

(** With a ['<'] ahead that no ['>'] follows, a step of [Next] fails or
    leaves that ['<'] ahead. *)
Lemma nextTrimmed_open_tag pre post :
  forallb notGt post = true →
  nextTrimmed T (pre ++ 60 :: post) = Panic
  ∨ ∃ tok pre', nextTrimmed T (pre ++ 60 :: post)
                = Ok (tok, true, pre' ++ 60 :: post).
Proof.
  intros Hpost.
  assert (Hall : scan notGt (60 :: post) = length (60 :: post)).
  { apply scan_all. simpl. exact Hpost. }
  destruct pre as [|c r].
  - left. simpl app. unfold nextTrimmed.
    change (60 =? 60) with true. cbv iota. fold notGt. rewrite Hall.
    destruct (_ <=? _)%nat eqn:Hb; [|done].
    apply Nat.leb_le in Hb. unfold rune in *. simpl in Hb. lia.
  - unfold nextTrimmed. change ((c :: r) ++ 60 :: post)
      with (c :: (r ++ 60 :: post)).
    unfold rune in *.
    destruct (c =? 60) eqn:Hc.
    + change (fun r : Z => negb (r =? 62)) with notGt.
      change (c :: r ++ 60 :: post) with ((c :: r) ++ 60 :: post).
      rewrite scan_app, Hall. unfold rune in *.
      destruct (scan notGt (c :: r) <? length (c :: r))%nat eqn:Hlt; cbv iota.
      * apply Nat.ltb_lt in Hlt. right.
        destruct (_ <=? _)%nat eqn:Hb.
        -- exists None, (drop (scan notGt (c :: r) + 1) (c :: r)).
           rewrite drop_app_le by lia. reflexivity.
        -- apply Nat.leb_gt in Hb. rewrite length_app in Hb. lia.
      * left. destruct (_ <=? _)%nat eqn:Hb; [|done].
        apply Nat.leb_le in Hb. rewrite length_app in Hb. lia.
    + right.
      assert (Hrun : ∀ p, p 60 = false →
                ∃ n, scan p ((c :: r) ++ 60 :: post) = n
                     ∧ (n ≤ length (c :: r))%nat).
      { intros p Hp. eexists. split; [reflexivity|]. rewrite scan_app.
        unfold rune in *.
        destruct (_ <? _)%nat eqn:Hlt; [apply Nat.ltb_lt in Hlt; lia|].
        change (scan p (60 :: post)) with (if p 60 then S (scan p post) else O).
        rewrite Hp. lia. }
      change (c :: r ++ 60 :: post) with ((c :: r) ++ 60 :: post).
      destruct (unicode.IsNumber T c); [|destruct (unicode.IsLetter T c)].
      * destruct (Hrun (unicode.IsNumber T) eq_refl) as (n & -> & Hn).
        exists (Some (take n ((c :: r) ++ 60 :: post))), (drop n (c :: r)).
        by rewrite drop_app_le.
      * destruct (Hrun (fun r => unicode.IsLetter T r || unicode.IsNumber T r)
                    eq_refl) as (n & -> & Hn).
        exists (Some (take n ((c :: r) ++ 60 :: post))), (drop n (c :: r)).
        by rewrite drop_app_le.
      * by exists (Some [c]), r.
Qed.

Lemma tokenize_open_tag_Panic n : ∀ s pre post,
  (length s ≤ n)%nat → s = pre ++ 60 :: post →
  forallb notGt post = true → tokenize T s = Panic.
Proof.
  induction n as [|n IH]; intros s pre post Hlen -> Hpost.
  { rewrite length_app in Hlen. simpl in Hlen. unfold rune in *. lia. }
  rewrite tokenize_step.
  destruct (trimLeftRunes_keeps_lt pre post) as (pre' & Htrim).
  pose proof (trimLeftRunes_le T (pre ++ 60 :: post)) as Hle.
  rewrite Htrim in Hle |- *.
  destruct (nextTrimmed_open_tag pre' post Hpost) as [->|(tok & pre'' & HN)];
    [done|].
  rewrite HN. apply nextTrimmed_shrinks in HN.
  assert (Hrest : tokenize T (pre'' ++ 60 :: post) = Panic).
  { apply (IH _ pre'' post); [unfold rune in *; lia|done|done]. }
  unfold tokenizeStep. rewrite Hrest. by destruct tok.
Qed.

Lemma tokenize_Panic_open_tag n : ∀ s,
  (length s ≤ n)%nat → tokenize T s = Panic →
  ∃ pre post, s = pre ++ 60 :: post ∧ forallb notGt post = true.
Proof.
  induction n as [|n IH]; intros s Hlen.
  { destruct s; [|simpl in Hlen; unfold rune in *; lia]. discriminate. }
  rewrite tokenize_step.
  destruct (trimLeftRunes_suffix T s) as (ws & Hs & _).
  pose proof (trimLeftRunes_le T s) as Hle.
  destruct (nextTrimmed T (trimLeftRunes T s)) as [[[tok hasNext] rest]| |]
    eqn:HN.
  - destruct hasNext; [|by destruct tok].
    destruct (nextTrimmed_consumed _ _ _ HN) as (consumed & Hy).
    apply nextTrimmed_shrinks in HN.
    intros Hstep.
    assert (Hrest : tokenize T rest = Panic).
    { unfold tokenizeStep in Hstep. destruct tok; [|done].
      by destruct (tokenize T rest). }
    destruct (IH rest ltac:(unfold rune in *; lia) Hrest) as (pre & post & -> & Hpost).
    exists (ws ++ consumed ++ pre), post. split; [|done].
    rewrite Hs at 1. rewrite Hy. by rewrite <- !app_assoc.
  - intros _. destruct (nextTrimmed_Panic _ HN) as (body & Hy & Hbody).
    exists ws, body. split; [|done]. rewrite Hs at 1. by rewrite Hy.
  - by destruct (nextTrimmed_not_Fuel T _ HN).
Qed.

End PanicMore.

(** ** White space between two texts *)

Section SeparatorMore.
Variable T : unicode.tables.

Lemma latin1White_class sep :
  latin1White sep = true →
  unicode.IsSpace T sep = true ∧ unicode.IsNumber T sep = false
  ∧ unicode.IsLetter T sep = false ∧ sep ≠ 60.
Proof.
  unfold latin1White. intros H. apply andb_prop in H as [HL Hsp].
  unfold unicode.IsSpace, unicode.IsNumber, unicode.IsLetter. rewrite HL.
  unfold unicode.latin1Space in Hsp.
  repeat match type of Hsp with
         | (_ || _) = true => apply orb_prop in Hsp as [Hsp|Hsp]
         end; apply Z.eqb_eq in Hsp; subst sep; done.
Qed.

Lemma trimLeftRunes_app_nil s t :
  trimLeftRunes T s = [] → trimLeftRunes T (s ++ t) = trimLeftRunes T t.
Proof.
  induction s as [|c r IH]; simpl; [done|].
  destruct (unicode.IsSpace T c); [exact IH|discriminate].
Qed.

Lemma trimLeftRunes_app_cons s t c r :
  trimLeftRunes T s = c :: r → trimLeftRunes T (s ++ t) = c :: r ++ t.
Proof.
  induction s as [|x s IH]; simpl; [discriminate|].
  destruct (unicode.IsSpace T x); [exact IH|]. by intros [= -> ->].
Qed.

Lemma scan_app_stop p (a : list rune) x t :
  p x = false → scan p (a ++ x :: t) = scan p a.
Proof.
  intros Hx. rewrite scan_app. pose proof (scan_le p a).
  destruct (_ <? _)%nat eqn:Hlt; [done|].
  apply Nat.ltb_ge in Hlt. simpl. rewrite Hx. unfold rune in *. lia.
Qed.

(** A step of [Next] that succeeds does the same when white space and
    more text are appended. *)
Lemma nextTrimmed_app_white x sep s2 tok rest :
  latin1White sep = true →
  nextTrimmed T x = Ok (tok, true, rest) →
  nextTrimmed T (x ++ sep :: s2) = Ok (tok, true, rest ++ sep :: s2).
Proof.
  intros Hsep. destruct (latin1White_class sep Hsep) as (_ & HN & HL & _).
  unfold nextTrimmed. destruct x as [|c r]; [discriminate|].
  change ((c :: r) ++ sep :: s2) with (c :: (r ++ sep :: s2)).
  unfold rune in *.
  destruct (c =? 60).
  - change (fun r : Z => negb (r =? 62)) with notGt.
    change (c :: r ++ sep :: s2) with ((c :: r) ++ sep :: s2).
    destruct (_ <=? _)%nat eqn:Hb; [|discriminate]. intros [= <- <-].
    apply Nat.leb_le in Hb. rewrite scan_app. unfold rune in *.
    cbn [length] in *.
    destruct (_ <? _)%nat eqn:Hlt; [|apply Nat.ltb_ge in Hlt; lia].
    destruct (_ <=? _)%nat eqn:Hb'.
    + rewrite drop_app_le by (cbn [length]; lia). reflexivity.
    + apply Nat.leb_gt in Hb'. rewrite length_app in Hb'. cbn [length] in Hb'.
      lia.
  - change (c :: r ++ sep :: s2) with ((c :: r) ++ sep :: s2).
    destruct (unicode.IsNumber T c); [|destruct (unicode.IsLetter T c)];
      intros [= <- <-].
    + rewrite scan_app_stop by done.
      pose proof (scan_le (unicode.IsNumber T) (c :: r)).
      by rewrite take_app_le, drop_app_le.
    + rewrite scan_app_stop by (by rewrite HL, HN).
      pose proof (scan_le (fun r => unicode.IsLetter T r || unicode.IsNumber T r)
                    (c :: r)).
      by rewrite take_app_le, drop_app_le.
    + done.
Qed.

Lemma fmap_app_nil (r : res (list (list rune))) : app [] <$> r = r.
Proof. by destruct r. Qed.

Lemma tokenize_app_white n : ∀ s1 s2 sep t1,
  (length s1 ≤ n)%nat → latin1White sep = true →
  tokenize T s1 = Ok t1 →
  tokenize T (s1 ++ sep :: s2) = app t1 <$> tokenize T s2.
Proof.
  induction n as [|n IH]; intros s1 s2 sep t1 Hlen Hsep Htok.
  - destruct s1; [|simpl in Hlen; lia].
    destruct (latin1White_class sep Hsep) as (Hsp & _).
    vm_compute in Htok. injection Htok as <-. rewrite fmap_app_nil.
    rewrite <- (tokenize_trim T ([] ++ sep :: s2)). simpl. rewrite Hsp.
    apply tokenize_trim.
  - destruct (latin1White_class sep Hsep) as (Hsp & _).
    rewrite tokenize_step in Htok. rewrite (tokenize_step T (s1 ++ _)).
    pose proof (trimLeftRunes_le T s1) as Hle.
    destruct (trimLeftRunes T s1) as [|c r] eqn:Htrim.
    + simpl in Htok. injection Htok as <-.
      rewrite (trimLeftRunes_app_nil _ _ Htrim). simpl. rewrite Hsp.
      rewrite fmap_app_nil. symmetry. apply tokenize_step.
    + rewrite (trimLeftRunes_app_cons _ _ _ _ Htrim).
      change (c :: r ++ sep :: s2) with ((c :: r) ++ sep :: s2).
      destruct (nextTrimmed T (c :: r)) as [[[tok hasNext] rest]| |] eqn:HN;
        [|discriminate..].
      destruct hasNext.
      2:{ apply nextTrimmed_end in HN. discriminate. }
      rewrite (nextTrimmed_app_white _ sep s2 _ _ Hsep HN).
      apply nextTrimmed_shrinks in HN. simpl in HN, Hle.
      unfold tokenizeStep in *. destruct tok as [tok|].
      * destruct (tokenize T rest) as [t1'| |] eqn:Hrest; [|discriminate..].
        simpl in Htok. injection Htok as <-.
        rewrite (IH rest s2 sep t1') by (done || unfold rune in *; lia).
        by destruct (tokenize T s2).
      * apply IH; [unfold rune in *; lia|done|done].
Qed.

End SeparatorMore.

(** ** More on [indexFolder] *)

Section IndexMore.
Variable T : unicode.tables.

Lemma countTokens_Panic_iff text :
  countTokens T text = Panic ↔ tokenize T text = Panic.
Proof. rewrite countTokens_tokenize. by destruct (tokenize T text). Qed.

Lemma countTokens_not_Fuel text : countTokens T text ≠ Fuel.
Proof. apply countLoop_enough. simpl. lia. Qed.

(** Two folders one after the other. *)
Lemma indexFolder_app files1 : ∀ files2 m,
  indexFolder T (files1 ++ files2) m
  = indexFolder T files1 m ≫= indexFolder T files2.
Proof.
  induction files1 as [|[path text] files1 IH]; intros files2 m; simpl; [done|].
  destruct (countTokens T text) as [tf| |]; simpl; [apply IH|done..].
Qed.

Lemma indexFolder_Panic files : ∀ m,
  indexFolder T files m = Panic
  ↔ ∃ path text, (path, text) ∈ files ∧ tokenize T text = Panic.
Proof.
  induction files as [|[path text] files IH]; intros m; simpl.
  - split; [discriminate|]. intros (p & t & Hin & _).
    by apply elem_of_nil in Hin.
  - destruct (countTokens T text) as [tf| |] eqn:Htf; simpl.
    + rewrite IH. split.
      * intros (p & t & Hin & Hp). exists p, t. split; [by right|done].
      * intros (p & t & Hin & Hp). apply elem_of_cons in Hin as [[= -> ->]|Hin].
        -- apply countTokens_Panic_iff in Hp. congruence.
        -- by exists p, t.
    + split; [|done]. intros _. exists path, text. split; [by left|].
      by apply countTokens_Panic_iff.
    + by destruct (countTokens_not_Fuel text).
Qed.

(** The entry of [DF] for [t] has grown by the number of the files whose
    counts hold [t], whether or not two files share a path. *)
Lemma indexFolder_DF_general (t : list rune) files : ∀ m m',
  - 2 ^ 63 ≤ lookupInt (DF m) t < 2 ^ 63 →
  indexFolder T files m = Ok m' →
  lookupInt (DF m') t
  = wrap (lookupInt (DF m) t + Z.of_nat (filesHolding T t files)).
Proof.
  unfold filesHolding.
  induction files as [|[path text] files IH]; intros m m' Hr; simpl.
  - intros [= <-]. rewrite Z.add_0_r. symmetry. by apply wrap_small.
  - destruct (countTokens T text) as [tf| |] eqn:Htf; simpl; [|discriminate..].
    intros Hrun.
    assert (Hhold : textHolds T t text = bool_decide (is_Some (tf !! t)))
      by (unfold textHolds; by rewrite Htf).
    apply IH in Hrun; cbn [DF].
    + rewrite Hrun. cbn [DF]. rewrite bumpDF_lookup.
      destruct (decide (is_Some (tf !! t))) as [Hs|Hs].
      * rewrite filter_cons_True
          by (cbn [snd]; rewrite Hhold; by apply bool_decide_eq_true).
        rewrite wrap_add_l. f_equal. cbn [length]. lia.
      * rewrite filter_cons_False; [done|]. cbn [snd]. rewrite Hhold.
        by rewrite bool_decide_eq_true.
    + rewrite bumpDF_lookup. case_decide; [apply wrap_range|done].
Qed.

(** The entry of [TF] for a path is the count table of the last file
    with that path, and the entries of the other paths are untouched. *)
Lemma indexFolder_TF_untouched files : ∀ m m' (p : string),
  p ∉ files.*1 → indexFolder T files m = Ok m' → TF m' !! p = TF m !! p.
Proof.
  induction files as [|[path text] files IH]; intros m m' p Hp; simpl.
  - by intros [= <-].
  - destruct (countTokens T text) as [tf| |]; simpl; [|discriminate..].
    intros Hrun. simpl in Hp. apply not_elem_of_cons in Hp as [Hne Hp].
    rewrite (IH _ _ _ Hp Hrun). simpl. by rewrite lookup_insert_ne.
Qed.

Lemma indexFolder_TF_last before : ∀ (p : string) text after m m',
  p ∉ after.*1 →
  indexFolder T (before ++ (p, text) :: after) m = Ok m' →
  ∃ tf, countTokens T text = Ok tf ∧ TF m' !! p = Some tf.
Proof.
  induction before as [|[path0 text0] before IH];
    intros p text after m m' Hp; simpl.
  - destruct (countTokens T text) as [tf| |]; simpl; [|discriminate..].
    intros Hrun. exists tf. split; [done|].
    rewrite (indexFolder_TF_untouched _ _ _ _ Hp Hrun). simpl.
    by rewrite lookup_insert_eq.
  - destruct (countTokens T text0) as [tf0| |]; simpl; [|discriminate..].
    by apply IH.
Qed.

End IndexMore.

Lemma docsWith_replace (t : list rune) (p : string)
    (old tf : gmap (list rune) Z) (table : gmap string (gmap (list rune) Z)) :
  table !! p = Some old → is_Some (old !! t) → is_Some (tf !! t) →
  docsWith t (<[p := tf]> table) = docsWith t table.
Proof.
  intros Hp Hold Htf.
  rewrite <- (insert_delete_eq table p tf).
  rewrite <- (insert_delete_id table p old Hp) at 2.
  rewrite !docsWith_insert by apply lookup_delete_eq.
  by rewrite !decide_True.
Qed.

Lemma DFInvariant_exact (m : Model) (t : list rune) :
  DFInvariant m → Z.of_nat (size (TF m)) < 2 ^ 63 →
  lookupInt (DF m) t = Z.of_nat (docsWith t (TF m)).
Proof.
  intros Hinv Hsize. rewrite Hinv. apply wrap_small.
  pose proof (docsWith_le t (TF m)). lia.
Qed.

(** ** More on the batch builder *)

Lemma fold_left_ext_in {A B : Type} (f g : A → B → A) (l : list B) :
  (∀ x, x ∈ l → ∀ a, f a x = g a x) →
  ∀ a, fold_left f l a = fold_left g l a.
Proof.
  induction l as [|x l IH]; intros Hfg a; simpl; [done|].
  rewrite Hfg by (by left). apply IH. intros y Hy. apply Hfg. by right.
Qed.

Lemma docsWith_zero_iff (t : list rune)
    (table : gmap string (gmap (list rune) Z)) :
  docsWith t table = O
  ↔ ∀ p d, table !! p = Some d → d !! t = None.
Proof.
  unfold docsWith. rewrite map_size_empty_iff. split.
  - intros Hempty p d Hp. destruct (d !! t) as [c|] eqn:Hc; [|done].
    exfalso.
    assert (Hin : filter (fun kv : string * gmap (list rune) Z =>
                            is_Some (kv.2 !! t)) table !! p = Some d).
    { apply map_lookup_filter_Some. split; [done|]. simpl. by eexists. }
    by rewrite Hempty, lookup_empty in Hin.
  - intros Hnone. apply map_eq. intros p. rewrite lookup_empty.
    apply map_lookup_filter_None. right. intros d Hp [c Hc]. simpl in Hc.
    by rewrite (Hnone p d Hp) in Hc.
Qed.

Lemma calculateTFIDF_size (Log : float64 → float64)
    (table : gmap string (gmap (list rune) Z)) :
  size (builder.calculateTFIDF Log table) = size table.
Proof.
  assert (H : builder.calculateTFIDF Log table
              = builder.tfidfRow Log table <$> table).
  { apply map_eq. intros p. by rewrite calculateTFIDF_lookup, lookup_fmap. }
  rewrite H. apply map_size_fmap.
Qed.

(** ** Floating point: what is never NaN *)

Lemma shr_nonneg mrs e n : 0 ≤ shr_m mrs → 0 ≤ shr_m (shr mrs e n).1.
Proof.
  intros Hm. unfold shr. destruct n as [|k|k]; simpl; [done| |done].
  rewrite shr_iter_m by done. apply Z.div_pos; lia.
Qed.

Lemma shr_fexp_nonneg prec emax m e l :
  0 ≤ m → 0 ≤ shr_m (shr_fexp prec emax m e l).1.
Proof.
  intros Hm. unfold shr_fexp. apply shr_nonneg.
  by rewrite shr_record_of_loc_m.
Qed.

Lemma round_nearest_even_nonneg m l : 0 ≤ m → 0 ≤ round_nearest_even m l.
Proof.
  intros Hm. destruct (round_nearest_even_cases m l) as [->| ->]; lia.
Qed.

(** Rounding a mantissa that is not negative never gives NaN. *)
Lemma binary_round_aux_not_NaN prec emax s m e l :
  0 ≤ m → binary_round_aux prec emax s m e l ≠ S754_nan.
Proof.
  intros Hm. unfold binary_round_aux.
  pose proof (shr_fexp_nonneg prec emax m e l Hm) as H1.
  destruct (shr_fexp prec emax m e l) as [mrs' e']. simpl in H1.
  pose proof (shr_fexp_nonneg prec emax
                (round_nearest_even (shr_m mrs') (loc_of_shr_record mrs'))
                e' loc_Exact (round_nearest_even_nonneg _ _ H1)) as H2.
  destruct (shr_fexp prec emax _ e' loc_Exact) as [mrs'' e'']. simpl in H2.
  destruct (shr_m mrs'') as [|p|p]; [done| |lia].
  by destruct (e'' <=? emax - prec).
Qed.

Lemma SFdiv_finite_not_NaN prec emax sx mx ex sy my ey :
  SFdiv prec emax (S754_finite sx mx ex) (S754_finite sy my ey) ≠ S754_nan.
Proof.
  unfold SFdiv, SFdiv_core_binary.
  set (e' := Z.min _ _). set (sh := ex - ey - e').
  set (m' := match sh with
             | 0 => Z.pos mx
             | Z.pos _ => Z.shiftl (Z.pos mx) sh
             | Z.neg _ => 0
             end).
  assert (Hm' : 0 ≤ m').
  { unfold m'. destruct sh as [|k|k]; [lia| |lia].
    apply Z.shiftl_nonneg. lia. }
  pose proof (Z_div_mod m' (Z.pos my) ltac:(lia)) as Hdiv.
  destruct (Z.div_eucl m' (Z.pos my)) as [q r]. destruct Hdiv as [Hq Hr].
  apply binary_round_aux_not_NaN. nia.
Qed.

(** An [int] that is not zero converts to a finite [float32]. *)
Lemma f32_of_int_nonzero (z : Z) :
  - 2 ^ 63 ≤ z < 2 ^ 63 → z ≠ 0 →
  ∃ s m e, f32.of_int z = S754_finite s m e.
Proof.
  intros Hz Hnz.
  assert (Hd : ∀ p, Z.pos p ≤ 2 ^ 63 → Z.pos (digits2_pos p) ≤ 64).
  { intros p Hp. pose proof (digits2_pos_bounds p) as [Hlo _].
    destruct (Z_le_gt_dec (Z.pos (digits2_pos p)) 64) as [|Hgt]; [done|].
    exfalso. assert (2 ^ 64 ≤ 2 ^ (Z.pos (digits2_pos p) - 1))
      by (apply Z.pow_le_mono_r; lia). lia. }
  destruct z as [|p|p]; [done| |].
  - pose proof (Hd p ltac:(lia)).
    assert (1 ≤ Z.pos (digits2_pos p)) by lia.
    destruct (binary_round_normal 24 128 ltac:(lia) false p 0)
      as (m & e & H1 & _); unfold emin; try lia.
    by exists false, m, e.
  - pose proof (Hd p ltac:(lia)).
    assert (1 ≤ Z.pos (digits2_pos p)) by lia.
    destruct (binary_round_normal 24 128 ltac:(lia) true p 0)
      as (m & e & H1 & _); unfold emin; try lia.
    by exists true, m, e.
Qed.

Lemma calculateTF_sumOfTerms (term : list rune) (tfTable : gmap (list rune) Z) :
  calculateTF term tfTable
  = f32.div (f32.of_int (lookupInt tfTable term))
            (f32.of_int (sumOfTerms tfTable)).
Proof. reflexivity. Qed.

(** ** Upper case and the classes of ASCII *)

Section CaseMore.
Variable T : unicode.tables.

Lemma ToUpper_ascii r :
  isASCII r = true →
  isASCII (unicode.ToUpper T r) = true
  ∧ unicode.ToUpper T (unicode.ToUpper T r) = unicode.ToUpper T r
  ∧ (unicode.ToUpper T r =? 60) = (r =? 60)
  ∧ (unicode.ToUpper T r =? 62) = (r =? 62).
Proof.
  unfold isASCII, unicode.ToUpper, unicode.MaxASCII. intros Hr. rewrite Hr.
  apply Z.leb_le in Hr.
  destruct ((97 <=? r) && (r <=? 122)) eqn:Hlow.
  - apply andb_prop in Hlow as [H1 H2].
    apply Z.leb_le in H1. apply Z.leb_le in H2.
    rewrite (proj2 (Z.leb_le (r - 32) 127)) by lia.
    rewrite (proj2 (Z.leb_gt 97 (r - 32))) by lia. cbn [andb].
    rewrite (proj2 (Z.eqb_neq (r - 32) 60)), (proj2 (Z.eqb_neq r 60)),
      (proj2 (Z.eqb_neq (r - 32) 62)), (proj2 (Z.eqb_neq r 62)) by lia.
    done.
  - rewrite (proj2 (Z.leb_le r 127)) by lia. by rewrite Hlow.
Qed.

Lemma ToUpper_ascii_class r :
  isASCII r = true →
  unicode.IsSpace T (unicode.ToUpper T r) = unicode.IsSpace T r
  ∧ unicode.IsNumber T (unicode.ToUpper T r) = unicode.IsNumber T r
  ∧ unicode.IsLetter T (unicode.ToUpper T r) = unicode.IsLetter T r.
Proof.
  unfold isASCII, unicode.ToUpper, unicode.MaxASCII. intros Hr. rewrite Hr.
  destruct ((97 <=? r) && (r <=? 122)) eqn:Hlow; [|done].
  apply andb_prop in Hlow as [H1 H2].
  apply Z.leb_le in H1. apply Z.leb_le in H2.
  unfold unicode.IsSpace, unicode.IsNumber, unicode.IsLetter,
    unicode.isLatin1, unicode.MaxLatin1.
  rewrite (proj2 (Z.leb_le 0 r)), (proj2 (Z.leb_le r 255)),
    (proj2 (Z.leb_le 0 (r - 32))), (proj2 (Z.leb_le (r - 32) 255)) by lia.
  cbn [andb].
  unfold unicode.latin1Space, unicode.latin1Number, unicode.latin1Letter.
  rewrite (proj2 (Z.leb_le 97 r)), (proj2 (Z.leb_le r 122)),
    (proj2 (Z.leb_le 65 (r - 32))), (proj2 (Z.leb_le (r - 32) 90)),
    (proj2 (Z.leb_gt r 57)), (proj2 (Z.leb_gt (r - 32) 57)) by lia.
  repeat (rewrite (proj2 (Z.eqb_neq r _)) by lia).
  repeat (rewrite (proj2 (Z.eqb_neq (r - 32) _)) by lia).
  cbn [andb orb]. rewrite !andb_false_r, !orb_true_r. done.
Qed.

Lemma scan_map (p : rune → bool) (f : rune → rune) s :
  scan p (map f s) = scan (fun r => p (f r)) s.
Proof. induction s as [|r s IH]; simpl; [done|]. by rewrite IH. Qed.

Lemma scan_ext_in (p q : rune → bool) s :
  Forall (fun r => p r = q r) s → scan p s = scan q s.
Proof.
  induction 1 as [|r s Hr _ IH]; simpl; [done|]. by rewrite Hr, IH.
Qed.

Lemma trimLeftRunes_ToUpper s :
  forallb isASCII s = true →
  trimLeftRunes T (map (unicode.ToUpper T) s)
  = map (unicode.ToUpper T) (trimLeftRunes T s).
Proof.
  induction s as [|r s IH]; simpl; [done|]. intros Hs.
  apply andb_prop in Hs as [Hr Hs].
  rewrite (proj1 (ToUpper_ascii_class r Hr)).
  destruct (unicode.IsSpace T r); [by apply IH|done].
Qed.

Lemma trimLeftRunes_ascii s :
  forallb isASCII s = true → forallb isASCII (trimLeftRunes T s) = true.
Proof.
  induction s as [|r s IH]; simpl; [done|]. intros Hs.
  destruct (unicode.IsSpace T r); simpl; [|done].
  apply andb_prop in Hs as [_ Hs]. by apply IH.
Qed.

Lemma forallb_drop {A : Type} (p : A → bool) n : ∀ s,
  forallb p s = true → forallb p (drop n s) = true.
Proof.
  induction n as [|n IH]; intros [|x s]; simpl; try done.
  intros H. apply andb_prop in H as [_ H]. by apply IH.
Qed.

Lemma forallb_take {A : Type} (p : A → bool) n : ∀ s,
  forallb p s = true → forallb p (take n s) = true.
Proof.
  induction n as [|n IH]; intros [|x s]; simpl; try done.
  intros H. apply andb_prop in H as [Hx H]. rewrite Hx. by apply IH.
Qed.

Lemma map_ToUpper_idem s :
  forallb isASCII s = true →
  map (unicode.ToUpper T) (map (unicode.ToUpper T) s)
  = map (unicode.ToUpper T) s.
Proof.
  induction s as [|r s IH]; simpl; [done|]. intros Hs.
  apply andb_prop in Hs as [Hr Hs].
  rewrite (proj1 (proj2 (ToUpper_ascii r Hr))). by rewrite IH.
Qed.

Lemma map_ToUpper_ascii s :
  forallb isASCII s = true →
  forallb isASCII (map (unicode.ToUpper T) s) = true.
Proof.
  induction s as [|r s IH]; simpl; [done|]. intros Hs.
  apply andb_prop in Hs as [Hr Hs].
  rewrite (proj1 (ToUpper_ascii r Hr)). by apply IH.
Qed.

Lemma scan_ToUpper (p : rune → bool) s :
  (∀ r, isASCII r = true → p (unicode.ToUpper T r) = p r) →
  forallb isASCII s = true →
  scan p (map (unicode.ToUpper T) s) = scan p s.
Proof.
  intros Hp Hs. rewrite scan_map. apply scan_ext_in.
  rewrite Forall_forall. intros r Hr. apply Hp.
  rewrite forallb_forall in Hs. apply Hs. by apply list_elem_of_In.
Qed.

(** [Next] on upper-cased ASCII input does what it does on the input,
    upper-cased. *)
Lemma nextTrimmed_ToUpper s :
  forallb isASCII s = true →
  nextTrimmed T (map (unicode.ToUpper T) s)
  = match nextTrimmed T s with
    | Ok (token, hasNext, rest) =>
      Ok (map (unicode.ToUpper T) <$> token, hasNext,
          map (unicode.ToUpper T) rest)
    | Panic => Panic
    | Fuel => Fuel
    end.
Proof.
  intros Hs. destruct s as [|c r]; [done|].
  assert (Hc : isASCII c = true).
  { simpl in Hs. by apply andb_prop in Hs as [? _]. }
  unfold nextTrimmed. cbn [map].
  change (unicode.ToUpper T c :: map (unicode.ToUpper T) r)
    with (map (unicode.ToUpper T) (c :: r)).
  set (s := c :: r) in *.
  destruct (ToUpper_ascii c Hc) as (_ & _ & H60 & _).
  destruct (ToUpper_ascii_class c Hc) as (_ & HN & HL).
  rewrite H60, HN, HL, length_map.
  rewrite (scan_ToUpper (fun r => negb (r =? 62)) s),
    (scan_ToUpper (unicode.IsNumber T) s),
    (scan_ToUpper (fun r => unicode.IsLetter T r || unicode.IsNumber T r) s);
    try done.
  - destruct (c =? 60).
    { destruct (_ <=? _)%nat; [|done]. by rewrite skipn_map. }
    destruct (unicode.IsNumber T c).
    { by rewrite firstn_map, skipn_map. }
    destruct (unicode.IsLetter T c).
    { by rewrite firstn_map, skipn_map. }
    subst s. done.
  - intros x Hx. destruct (ToUpper_ascii_class x Hx) as (_ & -> & ->). done.
  - intros x Hx. by destruct (ToUpper_ascii_class x Hx) as (_ & -> & _).
  - intros x Hx. by destruct (ToUpper_ascii x Hx) as (_ & _ & _ & ->).
Qed.

Lemma nextTrimmed_ascii s token rest :
  forallb isASCII s = true → nextTrimmed T s = Ok (token, true, rest) →
  forallb isASCII rest = true
  ∧ match token with Some t => forallb isASCII t = true | None => True end.
Proof.
  intros Hs. unfold nextTrimmed. destruct s as [|c r]; [discriminate|].
  destruct (c =? 60).
  { destruct (_ <=? _)%nat; [|discriminate]. intros [= <- <-].
    split; [by apply forallb_drop|done]. }
  assert (Htake : ∀ n, forallb isASCII (take n (c :: r)) = true).
  { intros n. by apply forallb_take. }
  destruct (unicode.IsNumber T c); [|destruct (unicode.IsLetter T c)];
    intros [= <- <-].
  - split; [by apply forallb_drop|apply Htake].
  - split; [by apply forallb_drop|apply Htake].
  - simpl in Hs. apply andb_prop in Hs as [Hc Hr]. split; [done|].
    simpl. by rewrite Hc.
Qed.

Lemma tokenize_ToUpper n : ∀ s,
  (length s ≤ n)%nat → forallb isASCII s = true →
  tokenize T (map (unicode.ToUpper T) s) = tokenize T s.
Proof.
  induction n as [|n IH]; intros s Hlen Hs.
  { destruct s; [done|]. simpl in Hlen. unfold rune in *. lia. }
  rewrite (tokenize_step T s), tokenize_step.
  rewrite trimLeftRunes_ToUpper by done.
  pose proof (trimLeftRunes_ascii s Hs) as Hts.
  pose proof (trimLeftRunes_le T s) as Htl.
  rewrite nextTrimmed_ToUpper by done.
  destruct (nextTrimmed T (trimLeftRunes T s)) as [[[tok hasNext] rest]| |]
    eqn:HN; [|done..].
  destruct hasNext; [|by destruct tok].
  pose proof (nextTrimmed_shrinks T _ _ _ HN) as Hshr.
  destruct (nextTrimmed_ascii _ _ _ Hts HN) as [Hrest Htok].
  assert (Hrec : tokenize T (map (unicode.ToUpper T) rest) = tokenize T rest).
  { apply IH; [unfold rune in *; lia|done]. }
  destruct tok as [tok|]; simpl; rewrite Hrec; [|done].
  by rewrite map_ToUpper_idem.
Qed.

End CaseMore.

(** ** The tokens as pieces of the text *)

Section PiecesMore.
Variable T : unicode.tables.

Lemma latin1_space_class r :
  unicode.isLatin1 r = true → unicode.IsSpace T r = true →
  unicode.IsNumber T r = false ∧ unicode.IsLetter T r = false.
Proof.
  unfold unicode.IsSpace, unicode.IsNumber, unicode.IsLetter. intros ->.
  unfold unicode.latin1Space. intros H.
  repeat (apply orb_prop in H as [H|H]);
    apply Z.eqb_eq in H; subst r; done.
Qed.

Lemma trimLeftRunes_head x c r :
  trimLeftRunes T x = c :: r → unicode.IsSpace T c = false.
Proof.
  induction x as [|y x IH]; simpl; [discriminate|].
  destruct (unicode.IsSpace T y) eqn:Ey; [exact IH|]. by intros [= -> _].
Qed.

Lemma filter_notSpace_trim s :
  List.filter (notSpace T) (trimLeftRunes T s) = List.filter (notSpace T) s.
Proof.
  induction s as [|r s IH]; [done|]. cbn [trimLeftRunes List.filter].
  assert (Hn : notSpace T r = negb (unicode.IsSpace T r)) by done.
  rewrite Hn. destruct (unicode.IsSpace T r) eqn:E; cbn [negb]; [exact IH|].
  cbn [List.filter]. by rewrite Hn.
Qed.

Lemma filter_all {A : Type} (p : A → bool) l :
  forallb p l = true → List.filter p l = l.
Proof.
  induction l as [|x l IH]; simpl; [done|]. intros H.
  apply andb_prop in H as [-> H]. by rewrite IH.
Qed.

Lemma forallb_impl {A : Type} (p q : A → bool) l :
  (∀ x, p x = true → q x = true) → forallb p l = true → forallb q l = true.
Proof.
  intros Hpq. induction l as [|x l IH]; simpl; [done|]. intros H.
  apply andb_prop in H as [Hx H]. by rewrite (Hpq x Hx), IH.
Qed.

Lemma forallb_and {A : Type} (p q : A → bool) l :
  forallb p l = true → forallb q l = true →
  forallb (fun x => p x && q x) l = true.
Proof.
  induction l as [|x l IH]; simpl; [done|]. intros H1 H2.
  apply andb_prop in H1 as [-> H1]. apply andb_prop in H2 as [-> H2].
  by rewrite IH.
Qed.

(** What a token of [Next] is made of. *)
Lemma nextTrimmed_token y tok hasNext rest :
  nextTrimmed T y = Ok (Some tok, hasNext, rest) →
  y = tok ++ rest
  ∧ ∃ c t, tok = c :: t
      ∧ (forallb (unicode.IsNumber T) tok = true
         ∨ forallb (fun r => unicode.IsLetter T r || unicode.IsNumber T r) tok
           = true
         ∨ t = []).
Proof.
  unfold nextTrimmed. destruct y as [|c r]; [discriminate|].
  destruct (c =? 60); [destruct (_ <=? _)%nat; discriminate|].
  assert (Hrun : ∀ p, p c = true →
            ∃ t, take (scan p (c :: r)) (c :: r) = c :: t).
  { intros p Hp. simpl. rewrite Hp. simpl. by eexists. }
  destruct (unicode.IsNumber T c) eqn:HN;
    [|destruct (unicode.IsLetter T c) eqn:HL]; intros [= <- <- <-].
  - split; [by rewrite take_drop|].
    destruct (Hrun (unicode.IsNumber T) HN) as (t & Ht).
    exists c, t. split; [done|]. left.
    exact (proj1 (scan_take_drop (unicode.IsNumber T) (c :: r))).
  - split; [by rewrite take_drop|].
    destruct (Hrun (fun r => unicode.IsLetter T r || unicode.IsNumber T r))
      as (t & Ht); [by rewrite HL|].
    exists c, t. split; [done|]. right. left.
    exact (proj1 (scan_take_drop
             (fun r => unicode.IsLetter T r || unicode.IsNumber T r)
             (c :: r))).
  - split; [done|]. exists c, []. split; [done|]. by right; right.
Qed.

(** No token is empty, and the tokens together are no longer than the
    text. *)
Lemma tokenize_nonempty n : ∀ s tokens,
  (length s ≤ n)%nat → tokenize T s = Ok tokens →
  Forall (fun t => t ≠ []) tokens
  ∧ (length (concat tokens) ≤ length s)%nat.
Proof.
  induction n as [|n IH]; intros s tokens Hlen.
  { destruct s; [|simpl in Hlen; unfold rune in *; lia].
    intros [= <-]. split; [constructor|done]. }
  rewrite tokenize_step.
  pose proof (trimLeftRunes_le T s) as Htl.
  destruct (nextTrimmed T (trimLeftRunes T s)) as [[[tok hasNext] rest]| |]
    eqn:HN; [|done..].
  destruct hasNext.
  2:{ destruct tok; intros [= <-]; (split; [constructor|simpl; lia]). }
  pose proof (nextTrimmed_shrinks T _ _ _ HN) as Hshr.
  destruct tok as [tok|]; simpl.
  - destruct (tokenize T rest) as [tokens'| |] eqn:Hrest; [|done..].
    intros [= <-].
    destruct (IH rest tokens') as [Hne Hle]; [unfold rune in *; lia|done|].
    destruct (nextTrimmed_token _ _ _ _ HN) as (Hy & c & t & -> & _).
    split.
    + constructor; [done|exact Hne].
    + apply (f_equal length) in Hy. rewrite length_app in Hy.
      cbn [concat]. rewrite length_app, length_map.
      unfold rune in *. lia.
  - intros Hrest.
    destruct (IH rest tokens) as [Hne Hle]; [unfold rune in *; lia|done|].
    split; [done|]. unfold rune in *. lia.
Qed.

(** On Latin-1 text without ['<'] the tokens are the text, upper-cased
    and without its white space. *)
Lemma tokenize_pieces n : ∀ s,
  (length s ≤ n)%nat →
  forallb unicode.isLatin1 s = true → forallb notLt s = true →
  ∃ tokens, tokenize T s = Ok tokens
            ∧ concat tokens
              = map (unicode.ToUpper T) (List.filter (notSpace T) s).
Proof.
  induction n as [|n IH]; intros s Hlen Hlat Hlt.
  { destruct s; [|simpl in Hlen; unfold rune in *; lia]. by exists []. }
  rewrite tokenize_step, <- filter_notSpace_trim.
  pose proof (trimLeftRunes_le T s) as Htl.
  destruct (trimLeftRunes_suffix T s) as (ws & Hs & _).
  assert (Hlat' : forallb unicode.isLatin1 (trimLeftRunes T s) = true).
  { rewrite Hs, forallb_app in Hlat. by apply andb_prop in Hlat as [_ ?]. }
  assert (Hlt' : forallb notLt (trimLeftRunes T s) = true).
  { rewrite Hs, forallb_app in Hlt. by apply andb_prop in Hlt as [_ ?]. }
  destruct (trimLeftRunes T s) as [|c r] eqn:Etrim; [by exists []|].
  pose proof (trimLeftRunes_head _ _ _ Etrim) as Hc.
  destruct (nextTrimmed T (c :: r)) as [[[tok hasNext] rest]| |] eqn:HN.
  - destruct hasNext; [|by apply nextTrimmed_end in HN].
    pose proof (nextTrimmed_shrinks T _ _ _ HN) as Hshr.
    destruct tok as [tok|].
    2:{ exfalso. revert HN. unfold nextTrimmed.
        simpl in Hlt'. apply andb_prop in Hlt' as [Hc60 _].
        unfold notLt in Hc60. apply negb_true_iff in Hc60. rewrite Hc60.
        destruct (unicode.IsNumber T c); [|destruct (unicode.IsLetter T c)];
          discriminate. }
    destruct (nextTrimmed_token _ _ _ _ HN) as (Hy & c' & t & Htok & Hkind).
    assert (Hlat2 : forallb unicode.isLatin1 tok = true
                    ∧ forallb unicode.isLatin1 rest = true).
    { rewrite Hy, forallb_app in Hlat'. by apply andb_prop in Hlat'. }
    assert (Hlt2 : forallb notLt rest = true).
    { rewrite Hy, forallb_app in Hlt'. by apply andb_prop in Hlt' as [_ ?]. }
    destruct (IH rest) as (tokens' & Hrun & Hcat);
      [simpl in *; unfold rune in *; lia|apply Hlat2|done|].
    assert (Hns : forallb (notSpace T) tok = true).
    { destruct Hkind as [Hk|[Hk|Hk]].
      - pose proof (forallb_and _ _ _ (proj1 Hlat2) Hk) as Hb.
        revert Hb. apply forallb_impl. intros x Hx.
        apply andb_prop in Hx as [Hx1 Hx2]. unfold notSpace.
        destruct (unicode.IsSpace T x) eqn:Ex; [|done].
        destruct (latin1_space_class x Hx1 Ex) as [HxN _]. congruence.
      - pose proof (forallb_and _ _ _ (proj1 Hlat2) Hk) as Hb.
        revert Hb. apply forallb_impl. intros x Hx.
        apply andb_prop in Hx as [Hx1 Hx2]. unfold notSpace.
        destruct (unicode.IsSpace T x) eqn:Ex; [|done].
        destruct (latin1_space_class x Hx1 Ex) as [HxN HxL].
        by rewrite HxN, HxL in Hx2.
      - subst t tok. simpl in Hy. injection Hy as <- _.
        simpl. unfold notSpace. by rewrite Hc. }
    rewrite Hy. exists (map (unicode.ToUpper T) tok :: tokens'). split.
    { cbn [tokenizeStep]. by rewrite Hrun. }
    cbn [concat].
    rewrite Hcat, List.filter_app, (filter_all _ _ Hns).
    by rewrite map_app.
  - exfalso. apply nextTrimmed_Panic in HN as (body & [= -> _] & _).
    simpl in Hlt'. done.
  - by apply nextTrimmed_not_Fuel in HN.
Qed.

End PiecesMore.

(** * The claims *)

(** ** Lexer *)

(** C2.  [Next] does not survive an unterminated tag: when the input,
    once trimmed, starts with ['<'] and holds no ['>'], the scan stops at
    [n = len(l.content)] and [l.content[n+1:]] is out of range, so [Next]
    panics.  On ["<a"] it does, and with it [tokenize], and [indexFolder]
    on a folder that holds such a file. *)
Theorem Next_unterminated_tag_panics (T : unicode.tables) :
  (∀ l s, trimLeftRunes T (content l) = 60 :: s →
          forallb (fun r => negb (r =? 62)) s = true →
          Next T l = Panic)
  ∧ Next T (NewLexer (runes "<a")) = Panic
  ∧ tokenize T (runes "<a") = Panic
  ∧ indexFolder T [("doc.html"%string, runes "<a")] newModel = Panic.
Proof.
  split; [|repeat split; vm_compute; reflexivity].
  intros l s Htrim Hs. apply Next_Panic_iff. by exists s.
Qed.

(** C6.  ["a<b>c"] tokenizes to ["A"; "C"]; the step that meets the tag
    consumes it whole and yields no token while signalling more input. *)
Theorem tokenize_tag_stripping (T : unicode.tables) :
  tokenize T (runes "a<b>c") = Ok [runes "A"; runes "C"]
  ∧ Next T (NewLexer (runes "<b>c")) = Ok (None, true, NewLexer (runes "c")).
Proof. split; vm_compute; reflexivity. Qed.

(** C7.  ["abc123 42"] tokenizes to ["ABC123"; "42"]: a run that starts
    with a letter takes the digits that follow, a run that starts with a
    digit takes digits only. *)
Theorem tokenize_mixed_class (T : unicode.tables) :
  tokenize T (runes "abc123 42") = Ok [runes "ABC123"; runes "42"]
  ∧ Next T (NewLexer (runes "abc123 42"))
    = Ok (Some (runes "abc123"), true, NewLexer (runes " 42"))
  ∧ Next T (NewLexer (runes "42abc"))
    = Ok (Some (runes "42"), true, NewLexer (runes "abc")).
Proof. repeat split; vm_compute; reflexivity. Qed.

(** C9.  The loop of [tokenize] always ends, but not always with a
    token sequence.  It ends because every call of [Next] that signals
    [hasNext] leaves strictly less input than it found: started with one
    unit of fuel more than the input is long, neither [tokenize] nor the
    token loop of [indexFolder] runs out of fuel.  On ["<a"] it ends in
    the panic of C2, so there are finite inputs for which the tokenizer
    produces no token sequence at all; on every input on which it does
    not panic it returns at most as many tokens as the input has
    runes. *)
Theorem tokenize_unterminated_tag_no_token_sequence (T : unicode.tables) :
  tokenize T (runes "<a") = Panic
  ∧ countTokens T (runes "<a") = Panic
  ∧ ¬ (∀ term, ∃ tokens, tokenize T term = Ok tokens)
  ∧ (∀ l tok l', Next T l = Ok (tok, true, l') →
                 (length (content l') < length (content l))%nat)
  ∧ (∀ term, tokenize T term ≠ Fuel)
  ∧ (∀ text, countTokens T text ≠ Fuel)
  ∧ (∀ term, tokenize T term ≠ Panic →
             ∃ tokens, tokenize T term = Ok tokens
                       ∧ (length tokens ≤ length term)%nat).
Proof.
  assert (Hfuel : ∀ term, tokenize T term ≠ Fuel).
  { intros term. apply tokenizeLoop_enough. simpl. lia. }
  assert (Hpanic : tokenize T (runes "<a") = Panic)
    by (vm_compute; reflexivity).
  split; [exact Hpanic|]. split; [vm_compute; reflexivity|].
  split; [|split; [|split; [|split]]].
  - intros Hall. destruct (Hall (runes "<a")) as (tokens & Hrun).
    rewrite Hpanic in Hrun. discriminate.
  - intros l tok l'. apply Next_shrinks.
  - exact Hfuel.
  - intros text. apply countLoop_enough. simpl. lia.
  - intros term Hnp. specialize (Hfuel term). revert Hnp Hfuel.
    unfold tokenize.
    destruct (tokenizeLoop _ _ _ _) as [tokens| |] eqn:Hrun; [|done..].
    intros _ _. exists tokens. split; [done|].
    apply tokenizeLoop_length in Hrun. simpl in Hrun. lia.
Qed.

(** ** Document frequencies *)

(** C3.  After [indexFolder] has indexed, into a new model, files whose
    paths are pairwise different, [DF[t]] is for every token [t] the
    number of documents whose term counts contain [t], which is also what
    [numOfDocsWithTerm] of the batch builder counts.  On the way each
    document has added exactly one to the entry of every token it holds,
    whatever the count of that token. *)
Theorem indexFolder_DF (T : unicode.tables) (files : list (string * list rune))
    (m' : Model) :
  NoDup files.*1 →
  Z.of_nat (length files) < 2 ^ 63 →
  indexFolder T files newModel = Ok m' →
  (∀ t, lookupInt (DF m') t = Z.of_nat (docsWith t (TF m'))
        ∧ lookupInt (DF m') t = builder.numOfDocsWithTerm t (TF m'))
  ∧ (∀ (tf df : gmap (list rune) Z) t,
       lookupInt (bumpDF tf df) t
       = if decide (is_Some (tf !! t)) then wrap (lookupInt df t + 1)
         else lookupInt df t).
Proof.
  intros Hnd Hlen Hrun. split; [|apply bumpDF_lookup]. intros t.
  assert (Hfresh : ∀ p, p ∈ files.*1 → TF newModel !! p = None)
    by (intros p _; apply lookup_empty).
  destruct (indexFolder_invariant T files newModel m' Hnd Hfresh
              DFInvariant_newModel Hrun) as [Hinv Hsize].
  rewrite numOfDocsWithTerm_spec, Hinv. split; [|done].
  apply wrap_small. pose proof (docsWith_le t (TF m')) as Hle.
  simpl in Hsize. rewrite map_size_empty in Hsize. lia.
Qed.

Lemma indexFolder_DF_witness :
  let files := [("a.txt"%string, runes "cat cat dog");
                ("b.txt"%string, runes "dog <b>fish</b>")] in
  ∃ m', indexFolder unicode.latin1Only files newModel = Ok m'
        ∧ lookupInt (DF m') (runes "DOG") = 2
        ∧ lookupInt (DF m') (runes "CAT") = 1
        ∧ lookupInt (DF m') (runes "DOG")
          = Z.of_nat (docsWith (runes "DOG") (TF m')).
Proof.
  intros files.
  destruct (indexFolder unicode.latin1Only files newModel) as [m'| |] eqn:Hrun;
    [|vm_compute in Hrun; discriminate..].
  exists m'. split; [reflexivity|].
  assert (Hm : Ok m' = indexFolder unicode.latin1Only files newModel)
    by (symmetry; exact Hrun).
  split; [|split].
  - vm_compute in Hm. injection Hm as ->. vm_compute. reflexivity.
  - vm_compute in Hm. injection Hm as ->. vm_compute. reflexivity.
  - refine (proj1 (proj1 (indexFolder_DF unicode.latin1Only files m' _ _ Hrun) _)).
    + apply (bool_decide_unpack _). vm_compute. reflexivity.
    + vm_compute. reflexivity.
Defined.

(** ** Scoring *)

(** C1.  On a document without tokens [calculateTF] divides zero by
    zero in [float32]: the result is NaN for every term, not zero, and
    the rank that [search] adds up for such a document is NaN for every
    query with at least one token. *)
Theorem calculateTF_empty_document_NaN :
  (∀ term, calculateTF term ∅ = S754_nan)
  ∧ (∀ Log m token tokens, rankOf Log m (token :: tokens) ∅ = S754_nan).
Proof.
  split.
  - exact calculateTF_empty.
  - intros Log m token tokens. apply rankOf_empty.
Qed.

(** C5.  [calculateIDF df n] is the logarithm, rounded to [float32], of
    the [float64] quotient of [n] by [max(df, 1)]; for [df = 0] this is
    the logarithm of [n], and for [n > 1] it is then a positive finite
    number. *)
Theorem calculateIDF_spec (Log : float64 → float64) (df n : Z) :
  LogRange Log →
  - 2 ^ 63 ≤ df < 2 ^ 63 → - 2 ^ 63 ≤ n < 2 ^ 63 →
  calculateIDF Log df n
  = f32.of_f64 (Log (f64.div (f64.of_int n) (f64.of_int (Z.max df 1))))
  ∧ (df = 0 → calculateIDF Log df n = f32.of_f64 (Log (f64.of_int n)))
  ∧ (df = 0 → 1 < n →
     ∃ m e, calculateIDF Log df n = S754_finite false m e
            ∧ SFltb f32.zero (calculateIDF Log df n) = true).
Proof.
  intros HLog Hdf Hn.
  assert (H0 : df = 0 → calculateIDF Log df n = f32.of_f64 (Log (f64.of_int n))).
  { intros ->. unfold calculateIDF.
    change (math.Max (f64.of_int 0) f64.one) with f64.one.
    by rewrite f64_div_of_int_one. }
  split; [|split].
  - unfold calculateIDF. by rewrite Max_one_of_int.
  - exact H0.
  - intros Hz Hn1. rewrite (H0 Hz).
    destruct (f32_Log_of_int_pos Log n HLog ltac:(lia)) as (m & e & ->).
    exists m, e. split; reflexivity.
Qed.

Lemma calculateIDF_spec_witness :
  calculateIDF stepLog 0 3 = f32.of_f64 (stepLog (f64.of_int 3))
  ∧ ∃ m e, calculateIDF stepLog 0 3 = S754_finite false m e
           ∧ SFltb f32.zero (calculateIDF stepLog 0 3) = true.
Proof.
  pose proof (calculateIDF_spec stepLog 0 3 stepLog_LogRange
                ltac:(lia) ltac:(lia)) as (_ & H0 & Hpos).
  split; [exact (H0 eq_refl) | exact (Hpos eq_refl ltac:(lia))].
Defined.

(** ** The batch index builder *)

(** C10.  [calculateTFIDF] records a (document, term) pair exactly when
    the term occurs in the document and its tf-idf is above zero, and
    then with that value.  So a term that occurs in all documents, whose
    idf is zero, is in no row, and the only row of a corpus of one
    document is empty. *)
Theorem calculateTFIDF_positive_only (Log : float64 → float64)
    (table : gmap string (gmap (list rune) Z)) :
  LogOne Log → Z.of_nat (size table) < 2 ^ 63 →
  (∀ path term v,
     (∃ row, builder.calculateTFIDF Log table !! path = Some row
             ∧ row !! term = Some v)
     ↔ (∃ document count,
          table !! path = Some document ∧ document !! term = Some count
          ∧ v = builder.tfidfOf Log table document term count
          ∧ SFltb f32.zero v = true))
  ∧ (∀ term, (∀ p d, table !! p = Some d → is_Some (d !! term)) →
       ∀ path row, builder.calculateTFIDF Log table !! path = Some row →
                   row !! term = None)
  ∧ (size table = 1%nat →
       ∀ path row, builder.calculateTFIDF Log table !! path = Some row →
                   row = ∅).
Proof.
  intros HLog Hsize.
  assert (Hrec : ∀ path term v,
     (∃ row, builder.calculateTFIDF Log table !! path = Some row
             ∧ row !! term = Some v)
     ↔ (∃ document count,
          table !! path = Some document ∧ document !! term = Some count
          ∧ v = builder.tfidfOf Log table document term count
          ∧ SFltb f32.zero v = true)).
  { intros path term v. rewrite calculateTFIDF_lookup. split.
    - intros (row & Hrow & Hv). destruct (table !! path) as [document|];
        [|discriminate]. simpl in Hrow. injection Hrow as <-.
      rewrite tfidfRow_lookup in Hv.
      destruct (document !! term) as [count|] eqn:Hcount; [|discriminate].
      destruct (SFltb f32.zero _) eqn:Hpos; [|discriminate].
      injection Hv as <-. exists document, count. auto.
    - intros (document & count & Hdoc & Hcount & -> & Hpos).
      exists (builder.tfidfRow Log table document). rewrite Hdoc.
      split; [done|]. by rewrite tfidfRow_lookup, Hcount, Hpos. }
  assert (Hall : ∀ term, (∀ p d, table !! p = Some d → is_Some (d !! term)) →
       ∀ path row, builder.calculateTFIDF Log table !! path = Some row →
                   row !! term = None).
  { intros term Hterm path row Hrow.
    destruct (row !! term) as [v|] eqn:Hv; [|done]. exfalso.
    destruct (proj1 (Hrec path term v)) as (document & count & Hdoc & _ & -> & Hpos);
      [by exists row|].
    assert (Hn : (1 ≤ size table)%nat).
    { pose proof (map_size_ne_0_lookup_2 table path ltac:(by eexists)). lia. }
    unfold builder.tfidfOf in Hpos.
    rewrite numOfDocsWithTerm_spec, docsWith_all in Hpos by done.
    rewrite wrap_small in Hpos by lia.
    rewrite (calculateIDF_all_docs Log) in Hpos by (done || lia).
    by rewrite f32_mul_zero_not_pos in Hpos. }
  split; [exact Hrec|]. split; [exact Hall|].
  intros Hone path row Hrow. apply map_eq. intros term. rewrite lookup_empty.
  destruct (row !! term) as [v|] eqn:Hv; [|done]. exfalso.
  destruct (proj1 (Hrec path term v)) as (document & count & Hdoc & Hcount & _);
    [by exists row|].
  rewrite (Hall term) with (path := path) in Hv; [done| |exact Hrow].
  intros p d Hp. rewrite (map_size_1_lookup table p path d document) in Hp
    by done.
  rewrite Hdoc in Hp. injection Hp as <-. by eexists.
Qed.

Lemma calculateTFIDF_positive_only_witness :
  ∃ row v, builder.calculateTFIDF stepLog exampleTable !! "a.txt"%string
           = Some row
           ∧ row !! runes "Y" = Some v ∧ SFltb f32.zero v = true
           ∧ row !! runes "X" = None.
Proof.
  pose proof (calculateTFIDF_positive_only stepLog exampleTable stepLog_LogOne
                ltac:(vm_compute; reflexivity)) as (Hrec & Hall & _).
  destruct (proj2 (Hrec "a.txt"%string (runes "Y")
              (builder.tfidfOf stepLog exampleTable
                 (<[runes "X" := 1]> {[runes "Y" := 1]}) (runes "Y") 1)))
    as (row & Hrow & Hv).
  { exists (<[runes "X" := 1]> {[runes "Y" := 1]}), 1.
    repeat split; vm_compute; reflexivity. }
  exists row, (builder.tfidfOf stepLog exampleTable
                 (<[runes "X" := 1]> {[runes "Y" := 1]}) (runes "Y") 1).
  split; [exact Hrow|]. split; [exact Hv|]. split; [vm_compute; reflexivity|].
  apply (Hall (runes "X")) with (path := "a.txt"%string); [|exact Hrow].
  intros p d Hp.
  destruct (decide (p = "a.txt"%string)) as [->|Hne].
  - vm_compute in Hp. injection Hp as <-. by eexists.
  - destruct (decide (p = "b.txt"%string)) as [->|Hne'].
    + vm_compute in Hp. injection Hp as <-. by eexists.
    + unfold exampleTable in Hp.
      rewrite lookup_insert_ne, lookup_singleton_ne in Hp by done.
      discriminate.
Defined.

(** ** Search *)

(** C4.  [search] on the model of a folder that holds an empty file:
    the rank of the empty document is NaN, every comparison that the sort
    makes with it answers false, and the three results come back in the
    order in which the map yielded them.  That list is not in descending
    order of rank, and the document of rank zero stands before the
    document of positive rank. *)
Theorem search_NaN_rank_unsorted (T : unicode.tables)
    (Log : float64 → float64) :
  indexFolder T exampleFiles newModel = Ok exampleModel
  ∧ list_to_map exampleOrder = TF exampleModel
  ∧ ∃ rc rb,
      search T Log insertionSort exampleOrder exampleModel (runes "x")
      = Ok [ {| Path := "c.txt"; Rank := rc |};
             {| Path := "a.txt"; Rank := S754_nan |};
             {| Path := "b.txt"; Rank := rb |} ]
      ∧ ¬ StronglySorted (fun a b => SFleb (Rank b) (Rank a) = true)
            [ {| Path := "c.txt"; Rank := rc |};
              {| Path := "a.txt"; Rank := S754_nan |};
              {| Path := "b.txt"; Rank := rb |} ]
      ∧ (LogRange Log → SFltb rc rb = true).
Proof.
  split; [vm_compute; reflexivity|]. split; [vm_compute; reflexivity|].
  exists (rankOf Log exampleModel [runes "X"] {[runes "Y" := 1]}),
         (rankOf Log exampleModel [runes "X"] {[runes "X" := 1]}).
  split; [|split].
  - unfold search.
    assert (Htok : tokenize T (runes "x") = Ok [runes "X"])
      by (vm_compute; reflexivity).
    rewrite Htok. cbn [mbind res_bind]. unfold exampleOrder, resultsOf.
    cbn [map]. rewrite rankOf_empty. f_equal.
    unfold insertionSort. cbn [fold_left sink].
    unfold Reverse, Less. cbn [Rank]. rewrite SFltb_nan_r.
    cbn [sink Rank]. reflexivity.
  - intros Hsorted. apply StronglySorted_inv in Hsorted as [_ Hall].
    apply Forall_cons in Hall as [Hnan _]. cbn [Rank] in Hnan.
    discriminate Hnan.
  - intros HLog. unfold rankOf. cbn [fold_left].
    change (lookupInt (DF exampleModel) (runes "X")) with 1.
    change (Z.of_nat (size (TF exampleModel))) with 3.
    destruct (calculateIDF_example Log HLog) as (m & e & -> & Hm & He).
    change (calculateTF (runes "X") {[runes "Y" := 1]}) with (S754_zero false).
    change (calculateTF (runes "X") {[runes "X" := 1]})
      with (S754_finite false 8388608 (-23)).
    destruct (f32_mul_one_normal m e Hm He) as (m' & e' & ->).
    reflexivity.
Qed.

(** * Further properties *)

(** ** Lexer *)

(** X1.  A token that [Next] returns is a non-empty prefix of the input
    once trimmed, the lexer keeps exactly what follows it, and the call
    signals [hasNext]; the token starts neither with white space nor
    with ['<']. *)
Theorem Next_token_prefix (T : unicode.tables) (l l' : lexer)
    (token : list rune) (hasNext : bool) :
  Next T l = Ok (Some token, hasNext, l') →
  hasNext = true
  ∧ trimLeftRunes T (content l) = token ++ content l'
  ∧ ∃ c rest, token = c :: rest ∧ unicode.IsSpace T c = false ∧ c ≠ 60.
Proof.
  rewrite Next_Ok_iff. unfold nextTrimmed.
  destruct (trimLeftRunes T (content l)) as [|c r] eqn:E; [discriminate|].
  assert (Hc : unicode.IsSpace T c = false).
  { revert E. generalize (content l). intros s.
    induction s as [|x s IH]; simpl; [discriminate|].
    destruct (unicode.IsSpace T x) eqn:Ex; [exact IH|]. by intros [= -> _]. }
  destruct (c =? 60) eqn:Hlt.
  { destruct (_ <=? _)%nat; discriminate. }
  apply Z.eqb_neq in Hlt.
  assert (Hrun : ∀ p, p c = true →
            ∃ rest, take (scan p (c :: r)) (c :: r) = c :: rest).
  { intros p Hp. simpl. rewrite Hp. simpl. by eexists. }
  destruct (unicode.IsNumber T c) eqn:HN; [|destruct (unicode.IsLetter T c) eqn:HL];
    intros [= <- <- <-].
  - split; [done|]. split; [by rewrite take_drop|].
    destruct (Hrun (unicode.IsNumber T) HN) as (rest & Hrest).
    exists c, rest. by rewrite <- Hrest.
  - split; [done|]. split; [by rewrite take_drop|].
    destruct (Hrun (fun r => unicode.IsLetter T r || unicode.IsNumber T r))
      as (rest & Hrest); [by rewrite HL|].
    exists c, rest. by rewrite <- Hrest.
  - split; [done|]. split; [done|]. by exists c, [].
Qed.

Lemma Next_token_prefix_witness :
  trimLeftRunes unicode.latin1Only (runes "  ab1 c")
  = runes "ab1" ++ runes " c".
Proof.
  exact (proj1 (proj2 (Next_token_prefix unicode.latin1Only
           (NewLexer (runes "  ab1 c")) (NewLexer (runes " c"))
           (runes "ab1") true eq_refl))).
Defined.

(** X2.  A token is of one of three kinds: a run of numbers, a letter
    followed by a run of letters and numbers, or one rune that is none of
    white space, ['<'], number and letter.  A run is as long as it can
    be: the rune that follows it, if any, does not continue it. *)
Theorem Next_token_class (T : unicode.tables) (l l' : lexer)
    (token : list rune) :
  Next T l = Ok (Some token, true, l') →
  (forallb (unicode.IsNumber T) token = true
   ∧ match content l' with
     | [] => True
     | r :: _ => unicode.IsNumber T r = false
     end)
  ∨ (∃ c rest, token = c :: rest ∧ unicode.IsLetter T c = true
       ∧ unicode.IsNumber T c = false
       ∧ forallb (fun r => unicode.IsLetter T r || unicode.IsNumber T r) token
         = true
       ∧ match content l' with
         | [] => True
         | r :: _ => unicode.IsLetter T r || unicode.IsNumber T r = false
         end)
  ∨ (∃ c, token = [c] ∧ unicode.IsSpace T c = false ∧ c ≠ 60
       ∧ unicode.IsNumber T c = false ∧ unicode.IsLetter T c = false).
Proof.
  rewrite Next_Ok_iff. unfold nextTrimmed.
  destruct (trimLeftRunes T (content l)) as [|c r] eqn:E; [discriminate|].
  assert (Hsp : unicode.IsSpace T c = false).
  { revert E. generalize (content l). intros s.
    induction s as [|x s IH]; simpl; [discriminate|].
    destruct (unicode.IsSpace T x) eqn:Ex; [exact IH|]. by intros [= -> _]. }
  destruct (c =? 60) eqn:Hc.
  { destruct (_ <=? _)%nat; discriminate. }
  apply Z.eqb_neq in Hc.
  destruct (unicode.IsNumber T c) eqn:HNum;
    [|destruct (unicode.IsLetter T c) eqn:HLet];
    intros [= <- <-].
  - left. exact (scan_take_drop (unicode.IsNumber T) (c :: r)).
  - right. left.
    pose proof (scan_take_drop
      (fun r => unicode.IsLetter T r || unicode.IsNumber T r) (c :: r))
      as [H1 H2].
    assert (Hhd : ∃ rest,
      take (scan (fun r => unicode.IsLetter T r || unicode.IsNumber T r) (c :: r))
           (c :: r) = c :: rest).
    { simpl. rewrite HLet. simpl. by eexists. }
    destruct Hhd as (rest & Hrest). exists c, rest. auto.
  - right. right. exists c. auto.
Qed.

Lemma Next_token_class_witness :
  forallb (unicode.IsNumber unicode.latin1Only) (runes "42") = true
  ∨ (∃ c rest, runes "42" = c :: rest
       ∧ unicode.IsLetter unicode.latin1Only c = true
       ∧ unicode.IsNumber unicode.latin1Only c = false)
  ∨ (∃ c, runes "42" = [c]).
Proof.
  destruct (Next_token_class unicode.latin1Only (NewLexer (runes " 42abc"))
              (NewLexer (runes "abc")) (runes "42") eq_refl)
    as [[H _]|[(c & rest & H1 & H2 & H3 & _)|(c & H & _)]].
  - left. exact H.
  - right. left. exists c, rest. auto.
  - right. right. by exists c.
Defined.

(** X3.  [Next] returns no token while signalling [hasNext] exactly when
    the trimmed input is a tag, ['<'] up to the first ['>'], and then it
    leaves what follows that ['>']. *)
Theorem Next_tag_iff (T : unicode.tables) (l : lexer) (rest : list rune) :
  Next T l = Ok (None, true, NewLexer rest)
  ↔ ∃ body, trimLeftRunes T (content l) = 60 :: body ++ 62 :: rest
            ∧ forallb (fun r => negb (r =? 62)) body = true.
Proof.
  rewrite Next_Ok_iff. unfold nextTrimmed. cbn [content].
  destruct (trimLeftRunes T (content l)) as [|c r] eqn:E.
  { split; [discriminate | intros (body & [=] & _)]. }
  destruct (c =? 60) eqn:Hc.
  - apply Z.eqb_eq in Hc. subst c.
    set (p := fun r : rune => negb (r =? 62)).
    change (scan p (60 :: r)) with (S (scan p r)).
    pose proof (scan_take_drop p r) as [Htake Hdrop].
    pose proof (scan_le p r) as Hle.
    assert (Hsplit : r = take (scan p r) r ++ drop (scan p r) r)
      by (by rewrite take_drop).
    assert (Hscan : ∀ body after, r = body ++ 62 :: after →
              forallb p body = true → scan p r = length body).
    { intros body after -> Hbody. by apply scan_forallb. }
    destruct (_ <=? _)%nat eqn:Hb.
    + apply Nat.leb_le in Hb. simpl in Hb.
      replace (S (scan p r) + 1)%nat with (S (S (scan p r))) by lia.
      cbn [drop]. destruct (drop (scan p r) r) as [|x after] eqn:Hd.
      { exfalso. apply (f_equal length) in Hd. rewrite length_drop in Hd.
        simpl in Hd. lia. }
      assert (Hx : x = 62).
      { unfold p in Hdrop. apply negb_false_iff, Z.eqb_eq in Hdrop. done. }
      subst x. rewrite (drop_S_tail _ _ _ _ Hd). split.
      * intros [= <-]. exists (take (scan p r) r). split; [|done].
        by rewrite Hsplit at 1.
      * intros (body & [= Hr] & Hbody). do 2 f_equal.
        rewrite (Hscan body rest Hr Hbody) in Hd. rewrite Hr in Hd.
        rewrite drop_app_length in Hd. by injection Hd as <-.
    + apply Nat.leb_gt in Hb. simpl in Hb.
      split; [discriminate|]. intros (body & [= Hr] & Hbody). exfalso.
      rewrite (Hscan body rest Hr Hbody) in Hb.
      rewrite Hr, length_app in Hb. simpl in Hb. lia.
  - split.
    + destruct (unicode.IsNumber T c); [|destruct (unicode.IsLetter T c)];
        discriminate.
    + intros (body & [= -> _] & _). discriminate.
Qed.

(** X4.  [Next] signals the end of the input exactly when nothing but
    white space is left; it then returns no token and leaves the lexer
    empty. *)
Theorem Next_end_iff (T : unicode.tables) (l l' : lexer)
    (token : option (list rune)) :
  Next T l = Ok (token, false, l')
  ↔ forallb (unicode.IsSpace T) (content l) = true
    ∧ token = None ∧ content l' = [].
Proof.
  rewrite Next_Ok_iff, <- trimLeftRunes_nil_iff. unfold nextTrimmed.
  destruct (trimLeftRunes T (content l)) as [|c r] eqn:E.
  - split.
    + by intros [= <- <-].
    + by intros (_ & -> & ->).
  - split; [|intros ([=] & _)].
    destruct (c =? 60).
    + destruct (_ <=? _)%nat; discriminate.
    + destruct (unicode.IsNumber T c); [|destruct (unicode.IsLetter T c)];
        discriminate.
Qed.

(** ** Tokens and their counts *)

(** X5.  When [tokenize] succeeds on a text, the token loop of
    [indexFolder] succeeds on it too, and its table holds exactly the
    tokens of [tokenize], each with the number of its occurrences; the
    counts add up to the number of tokens. *)
Theorem countTokens_counts (T : unicode.tables) (text : list rune)
    (tokens : list (list rune)) :
  tokenize T text = Ok tokens →
  Z.of_nat (length text) < 2 ^ 63 →
  ∃ tf, countTokens T text = Ok tf
        ∧ (∀ t, lookupInt tf t = Z.of_nat (occurrences t tokens)
                ∧ (is_Some (tf !! t) ↔ t ∈ tokens))
        ∧ sumOfTerms tf = Z.of_nat (length tokens).
Proof.
  intros Htok Hlen. exists (countAll tokens ∅).
  assert (Hn : (length tokens ≤ length text)%nat).
  { unfold tokenize in Htok. apply tokenizeLoop_length in Htok.
    simpl in Htok. lia. }
  split; [by rewrite countTokens_tokenize, Htok|]. split.
  - intros t. split.
    + rewrite countAll_lookup; unfold lookupInt; rewrite lookup_empty; simpl;
        [|lia].
      apply wrap_small. pose proof (occurrences_le t tokens). lia.
    + rewrite countAll_keys, lookup_empty. split; [|by left].
      intros [H|H]; [done | by destruct H].
  - rewrite sumOfTerms_countAll, sumOfTerms_empty. apply wrap_small. lia.
Qed.

Lemma countTokens_counts_witness :
  ∃ tf, countTokens unicode.latin1Only (runes "cat cat dog") = Ok tf
        ∧ lookupInt tf (runes "CAT") = 2
        ∧ sumOfTerms tf = 3.
Proof.
  destruct (countTokens_counts unicode.latin1Only (runes "cat cat dog")
              [runes "CAT"; runes "CAT"; runes "DOG"]
              ltac:(vm_compute; reflexivity) ltac:(vm_compute; reflexivity))
    as (tf & Hrun & Hcounts & Hsum).
  exists tf. split; [exact Hrun|]. split; [|exact Hsum].
  exact (proj1 (Hcounts (runes "CAT"))).
Defined.

(** X6.  [tokenize] panics exactly on the texts in which some ['<'] is
    followed by no ['>'] at all; on every other text it returns its
    tokens. *)
Theorem tokenize_Panic_iff (T : unicode.tables) (text : list rune) :
  (tokenize T text = Panic
   ↔ ∃ pre post, text = pre ++ 60 :: post ∧ forallb notGt post = true)
  ∧ (tokenize T text ≠ Panic → ∃ tokens, tokenize T text = Ok tokens).
Proof.
  split; [split|].
  - apply (tokenize_Panic_open_tag T (length text)). lia.
  - intros (pre & post & Htext & Hpost).
    by apply (tokenize_open_tag_Panic T (length text) text pre post).
  - intros Hnp. destruct (tokenize T text) as [tokens| |] eqn:Hrun.
    + by exists tokens.
    + done.
    + exfalso. revert Hrun. apply tokenizeLoop_enough. simpl. lia.
Qed.

(** X7.  White space separates: when [tokenize] succeeds on a text, the
    tokens of that text followed by a white space rune of Latin-1 and a
    second text are its tokens followed by those of the second text (and
    the whole fails exactly when the second text does). *)
Theorem tokenize_white_separates (T : unicode.tables)
    (text1 text2 : list rune) (sep : rune) (tokens1 : list (list rune)) :
  latin1White sep = true →
  tokenize T text1 = Ok tokens1 →
  tokenize T (text1 ++ sep :: text2) = app tokens1 <$> tokenize T text2.
Proof.
  intros Hsep Htok.
  by apply (tokenize_app_white T (length text1)).
Qed.

Lemma tokenize_white_separates_witness :
  tokenize unicode.latin1Only (runes "ab1 <i>" ++ 10 :: runes "c,d")
  = Ok [runes "AB1"; runes "C"; runes ","; runes "D"].
Proof.
  exact (tokenize_white_separates unicode.latin1Only (runes "ab1 <i>")
           (runes "c,d") 10 [runes "AB1"] eq_refl eq_refl).
Defined.

(** X26.  [tokenize] does not tell the cases of ASCII apart: two ASCII
    texts that are equal once upper-cased have the same tokens (and fail
    alike), so [search] answers the same for both queries. *)
Theorem tokenize_case_insensitive (T : unicode.tables)
    (text1 text2 : list rune) :
  forallb isASCII text1 = true → forallb isASCII text2 = true →
  map (unicode.ToUpper T) text1 = map (unicode.ToUpper T) text2 →
  tokenize T text1 = tokenize T text2
  ∧ ∀ Log Sort order m,
      search T Log Sort order m text1 = search T Log Sort order m text2.
Proof.
  intros H1 H2 Heq.
  assert (Htok : tokenize T text1 = tokenize T text2).
  { rewrite <- (tokenize_ToUpper T (length text1) text1),
      <- (tokenize_ToUpper T (length text2) text2); [|done..].
    by rewrite Heq. }
  split; [done|]. intros Log Sort order m. unfold search. by rewrite Htok.
Qed.

Lemma tokenize_case_insensitive_witness :
  tokenize unicode.latin1Only (runes "Cat <b>9") =
  tokenize unicode.latin1Only (runes "cAT <b>9").
Proof.
  exact (proj1 (tokenize_case_insensitive unicode.latin1Only
                  (runes "Cat <b>9") (runes "cAT <b>9")
                  eq_refl eq_refl eq_refl)).
Defined.

(** X27.  On a text of Latin-1 runes without ['<'], [tokenize] returns
    tokens that, put together, are the text upper-cased and without its
    white space: nothing else is dropped and nothing is added. *)
Theorem tokenize_keeps_all_but_space (T : unicode.tables) (text : list rune) :
  forallb unicode.isLatin1 text = true → forallb notLt text = true →
  ∃ tokens, tokenize T text = Ok tokens
            ∧ concat tokens
              = map (unicode.ToUpper T) (List.filter (notSpace T) text).
Proof.
  intros Hlat Hlt. by apply (tokenize_pieces T (length text)).
Qed.

Lemma tokenize_keeps_all_but_space_witness :
  ∃ tokens, tokenize unicode.latin1Only (runes "ab1, 2x  y") = Ok tokens
            ∧ concat tokens = runes "AB1,2XY".
Proof.
  exact (tokenize_keeps_all_but_space unicode.latin1Only (runes "ab1, 2x  y")
           eq_refl eq_refl).
Defined.

(** X28.  No token of [tokenize] is empty, and the tokens together have
    at most as many runes as the text. *)
Theorem tokenize_tokens_nonempty (T : unicode.tables) (text : list rune)
    (tokens : list (list rune)) :
  tokenize T text = Ok tokens →
  Forall (fun token => token ≠ []) tokens
  ∧ (length (concat tokens) ≤ length text)%nat.
Proof.
  intros Hrun. by apply (tokenize_nonempty T (length text)).
Qed.

Lemma tokenize_tokens_nonempty_witness :
  Forall (fun token => token ≠ []) [runes "A"; runes "1"; runes ","]
  ∧ (length (concat [runes "A"; runes "1"; runes ","])
     ≤ length (runes "<p>a 1,</p>"))%nat.
Proof.
  exact (tokenize_tokens_nonempty unicode.latin1Only (runes "<p>a 1,</p>")
           [runes "A"; runes "1"; runes ","] eq_refl).
Defined.

(** ** Indexing *)

(** X8.  [indexFolder] adds to [DF[t]] the number of the files whose
    counts hold [t], even when several files share a path. *)
Theorem indexFolder_DF_adds (T : unicode.tables) (t : list rune)
    (files : list (string * list rune)) (m m' : Model) :
  - 2 ^ 63 ≤ lookupInt (DF m) t < 2 ^ 63 →
  indexFolder T files m = Ok m' →
  lookupInt (DF m') t
  = wrap (lookupInt (DF m) t + Z.of_nat (filesHolding T t files)).
Proof. apply indexFolder_DF_general. Qed.

Lemma indexFolder_DF_adds_witness :
  lookupInt (DF exampleModel) (runes "X")
  = wrap (lookupInt (DF newModel) (runes "X")
          + Z.of_nat (filesHolding unicode.latin1Only (runes "X") exampleFiles)).
Proof.
  apply (indexFolder_DF_adds unicode.latin1Only (runes "X") exampleFiles
           newModel exampleModel).
  - change (lookupInt (DF newModel) (runes "X")) with 0. lia.
  - vm_compute. reflexivity.
Defined.

(** X9.  After [indexFolder] the entry of [TF] for a path is the count
    table of the last file with that path, and the entries of the paths
    that are not among the files are as before. *)
Theorem indexFolder_TF_entries (T : unicode.tables)
    (files : list (string * list rune)) (m m' : Model) :
  indexFolder T files m = Ok m' →
  (∀ p, p ∉ files.*1 → TF m' !! p = TF m !! p)
  ∧ (∀ before p text after,
       files = before ++ (p, text) :: after → p ∉ after.*1 →
       ∃ tf, countTokens T text = Ok tf ∧ TF m' !! p = Some tf).
Proof.
  intros Hrun. split.
  - intros p Hp. by apply (indexFolder_TF_untouched T files).
  - intros before p text after -> Hp.
    by apply (indexFolder_TF_last T before p text after m m').
Qed.

Lemma indexFolder_TF_entries_witness :
  TF exampleModel !! "zzz.txt"%string = TF newModel !! "zzz.txt"%string.
Proof.
  refine (proj1 (indexFolder_TF_entries unicode.latin1Only exampleFiles
                   newModel exampleModel _) "zzz.txt"%string _).
  - vm_compute. reflexivity.
  - apply (bool_decide_unpack _). vm_compute. reflexivity.
Defined.

(** X10.  [indexFolder] panics exactly when one of the texts holds a
    ['<'] that no ['>'] follows; otherwise it returns a model. *)
Theorem indexFolder_Panic_iff (T : unicode.tables)
    (files : list (string * list rune)) (m : Model) :
  (indexFolder T files m = Panic
   ↔ ∃ path text pre post,
       (path, text) ∈ files ∧ text = pre ++ 60 :: post
       ∧ forallb notGt post = true)
  ∧ (indexFolder T files m ≠ Panic → ∃ m', indexFolder T files m = Ok m').
Proof.
  split; [rewrite indexFolder_Panic; split|].
  - intros (path & text & Hin & Hp).
    destruct (tokenize_Panic_open_tag T (length text) text ltac:(lia) Hp)
      as (pre & post & Htext & Hpost).
    by exists path, text, pre, post.
  - intros (path & text & pre & post & Hin & Htext & Hpost).
    exists path, text. split; [done|].
    by apply (tokenize_open_tag_Panic T (length text) text pre post).
  - intros Hnp. destruct (indexFolder T files m) as [m'| |] eqn:Hrun.
    + by exists m'.
    + done.
    + by destruct (indexFolder_not_Fuel T files m).
Qed.

(** X11.  Indexing further files into a model that satisfies the
    invariant of [DF] keeps the invariant, when the paths of the files
    are new to the model and pairwise different. *)
Theorem indexFolder_keeps_invariant (T : unicode.tables)
    (files : list (string * list rune)) (m m' : Model) :
  DFInvariant m →
  NoDup files.*1 → (∀ p, p ∈ files.*1 → TF m !! p = None) →
  Z.of_nat (size (TF m) + length files) < 2 ^ 63 →
  indexFolder T files m = Ok m' →
  DFInvariant m'
  ∧ ∀ t, lookupInt (DF m') t = Z.of_nat (docsWith t (TF m')).
Proof.
  intros Hinv Hnd Hfresh Hsize Hrun.
  destruct (indexFolder_invariant T files m m' Hnd Hfresh Hinv Hrun)
    as [Hinv' Hsize'].
  split; [done|]. intros t. apply DFInvariant_exact; [done|].
  rewrite Hsize'. done.
Qed.

Lemma indexFolder_keeps_invariant_witness :
  ∃ m', indexFolder unicode.latin1Only [("d.txt"%string, runes "x y")]
          exampleModel = Ok m'
        ∧ lookupInt (DF m') (runes "X")
          = Z.of_nat (docsWith (runes "X") (TF m')).
Proof.
  destruct (indexFolder unicode.latin1Only [("d.txt"%string, runes "x y")]
              exampleModel) as [m'| |] eqn:Hrun;
    [|vm_compute in Hrun; discriminate..].
  exists m'. split; [done|].
  refine (proj2 (indexFolder_keeps_invariant unicode.latin1Only
                   [("d.txt"%string, runes "x y")] exampleModel m'
                   _ _ _ _ Hrun) (runes "X")).
  - refine (proj1 (indexFolder_invariant unicode.latin1Only exampleFiles
                     newModel exampleModel _ _ DFInvariant_newModel _)).
    + apply (bool_decide_unpack _). vm_compute. reflexivity.
    + intros p _. apply lookup_empty.
    + vm_compute. reflexivity.
  - apply (bool_decide_unpack _). vm_compute. reflexivity.
  - intros p Hp. apply list_elem_of_singleton in Hp as ->.
    vm_compute. reflexivity.
  - vm_compute. reflexivity.
Defined.

(** X12.  [indexFolder] does not take back what a document added to
    [DF]: when a path that the model holds is indexed again, a token of
    both the old and the new counts is counted once more, and [DF]
    exceeds the number of the documents that hold it by one. *)
Theorem indexFolder_again_counts_twice (T : unicode.tables) (m : Model)
    (path : string) (text : list rune) (old tf : gmap (list rune) Z)
    (t : list rune) :
  DFInvariant m → Z.of_nat (size (TF m)) + 1 < 2 ^ 63 →
  TF m !! path = Some old → is_Some (old !! t) →
  countTokens T text = Ok tf → is_Some (tf !! t) →
  ∃ m', indexFolder T [(path, text)] m = Ok m'
        ∧ TF m' = <[path := tf]> (TF m)
        ∧ lookupInt (DF m') t = Z.of_nat (docsWith t (TF m')) + 1.
Proof.
  intros Hinv Hsize Hpath Hold Htf Ht. simpl. rewrite Htf. simpl.
  eexists. split; [reflexivity|]. simpl. split; [done|].
  rewrite bumpDF_lookup, decide_True by done.
  rewrite (docsWith_replace t path old tf) by done.
  rewrite Hinv, wrap_add_l. apply wrap_small.
  pose proof (docsWith_le t (TF m)). lia.
Qed.

Lemma indexFolder_again_counts_twice_witness :
  ∃ m', indexFolder unicode.latin1Only [("b.txt"%string, runes "x x")]
          exampleModel = Ok m'
        ∧ TF m' = <["b.txt"%string := {[runes "X" := 2]}]> (TF exampleModel)
        ∧ lookupInt (DF m') (runes "X")
          = Z.of_nat (docsWith (runes "X") (TF m')) + 1.
Proof.
  apply (indexFolder_again_counts_twice unicode.latin1Only exampleModel
           "b.txt" (runes "x x") {[runes "X" := 1]} {[runes "X" := 2]}
           (runes "X")).
  - refine (proj1 (indexFolder_invariant unicode.latin1Only exampleFiles
                     newModel exampleModel _ _ DFInvariant_newModel _)).
    + apply (bool_decide_unpack _). vm_compute. reflexivity.
    + intros p _. apply lookup_empty.
    + vm_compute. reflexivity.
  - vm_compute. reflexivity.
  - vm_compute. reflexivity.
  - vm_compute. by eexists.
  - vm_compute. reflexivity.
  - vm_compute. by eexists.
Defined.

(** X13.  A file of white space only is stored with an empty count
    table, and [DF] stays as it is. *)
Theorem indexFolder_blank_file (T : unicode.tables) (m : Model)
    (path : string) (text : list rune) :
  forallb (unicode.IsSpace T) text = true →
  tokenize T text = Ok []
  ∧ indexFolder T [(path, text)] m
    = Ok {| TF := <[path := ∅]> (TF m); DF := DF m |}.
Proof.
  intros Hblank.
  assert (Htok : tokenize T text = Ok []).
  { rewrite tokenize_step.
    by rewrite (proj2 (trimLeftRunes_nil_iff T text) Hblank). }
  split; [done|]. cbn [indexFolder]. rewrite countTokens_tokenize, Htok.
  cbn [fmap res_fmap mbind res_bind countAll fold_left].
  unfold bumpDF. by rewrite map_fold_empty.
Qed.

Lemma indexFolder_blank_file_witness :
  indexFolder unicode.latin1Only [("e.txt"%string, [32; 10; 9])] newModel
  = Ok {| TF := <["e.txt"%string := ∅]> (TF newModel); DF := DF newModel |}.
Proof.
  exact (proj2 (indexFolder_blank_file unicode.latin1Only newModel "e.txt"
                  [32; 10; 9] eq_refl)).
Defined.

(** ** The batch index builder *)

(** X14.  [generateTft] builds the table that [indexFolder] builds as
    the [TF] of its model, and fails when [indexFolder] fails. *)
Theorem generateTft_indexFolder (T : unicode.tables)
    (files : list (string * list rune))
    (tft : gmap string (gmap (list rune) Z)) (df : gmap (list rune) Z) :
  builder.generateTft T files tft
  = TF <$> indexFolder T files {| TF := tft; DF := df |}.
Proof.
  revert tft df. induction files as [|[path text] files IH]; intros tft df;
    simpl; [done|].
  destruct (countTokens T text) as [tf| |]; simpl; [|done..].
  apply IH.
Qed.

(** X15.  [numOfDocsWithTerm] is the number of the documents of the
    table whose counts hold the term: it lies between zero and the number
    of documents, and it is zero exactly when no document holds the
    term. *)
Theorem numOfDocsWithTerm_counts (term : list rune)
    (table : gmap string (gmap (list rune) Z)) :
  Z.of_nat (size table) < 2 ^ 63 →
  builder.numOfDocsWithTerm term table = Z.of_nat (docsWith term table)
  ∧ 0 ≤ builder.numOfDocsWithTerm term table ≤ Z.of_nat (size table)
  ∧ (builder.numOfDocsWithTerm term table = 0
     ↔ ∀ p d, table !! p = Some d → d !! term = None).
Proof.
  intros Hsize. pose proof (docsWith_le term table) as Hle.
  assert (H : builder.numOfDocsWithTerm term table
              = Z.of_nat (docsWith term table)).
  { rewrite numOfDocsWithTerm_spec. apply wrap_small. lia. }
  rewrite H. split; [done|]. split; [lia|].
  rewrite <- docsWith_zero_iff. lia.
Qed.

Lemma numOfDocsWithTerm_counts_witness :
  builder.numOfDocsWithTerm (runes "Y") exampleTable
  = Z.of_nat (docsWith (runes "Y") exampleTable).
Proof.
  exact (proj1 (numOfDocsWithTerm_counts (runes "Y") exampleTable
                  ltac:(vm_compute; reflexivity))).
Defined.

(** X16.  [calculateTFIDF] makes one row for every document of the
    table, also for a document none of whose terms is recorded, and no
    other row. *)
Theorem calculateTFIDF_rows (Log : float64 → float64)
    (table : gmap string (gmap (list rune) Z)) :
  size (builder.calculateTFIDF Log table) = size table
  ∧ ∀ path, is_Some (builder.calculateTFIDF Log table !! path)
            ↔ is_Some (table !! path).
Proof.
  split; [apply calculateTFIDF_size|].
  intros path. rewrite calculateTFIDF_lookup. apply fmap_is_Some.
Qed.

(** X17.  The table of [calculateTFIDF] does not depend on the order in
    which the two loops of the function range over their maps. *)
Theorem calculateTFIDF_any_range_order (Log : float64 → float64)
    (table : gmap string (gmap (list rune) Z))
    (order : list (string * gmap (list rune) Z))
    (terms : gmap (list rune) Z → list (list rune * Z)) :
  order ≡ₚ map_to_list table →
  (∀ document, terms document ≡ₚ map_to_list document) →
  fold_left
    (fun (t : gmap string (gmap (list rune) float32)) kv =>
       <[kv.1 :=
           fold_left
             (fun (row : gmap (list rune) float32) tc =>
                if SFltb f32.zero
                     (builder.tfidfOf Log table kv.2 tc.1 tc.2)
                then <[tc.1 := builder.tfidfOf Log table kv.2 tc.1 tc.2]> row
                else row) (terms kv.2) ∅]> t) order ∅
  = builder.calculateTFIDF Log table.
Proof.
  intros Horder Hterms.
  rewrite <- (calculateTFIDF_any_order Log table order Horder).
  apply fold_left_ext_in. intros [path document] _ t. cbn [fst snd].
  by rewrite (tfidfRow_any_order Log table document (terms document)).
Qed.

Lemma calculateTFIDF_any_range_order_witness :
  fold_left
    (fun (t : gmap string (gmap (list rune) float32)) kv =>
       <[kv.1 :=
           fold_left
             (fun (row : gmap (list rune) float32) tc =>
                if SFltb f32.zero
                     (builder.tfidfOf stepLog exampleTable kv.2 tc.1 tc.2)
                then <[tc.1 :=
                         builder.tfidfOf stepLog exampleTable kv.2 tc.1 tc.2]>
                       row
                else row) (reverse (map_to_list kv.2)) ∅]> t)
    (reverse (map_to_list exampleTable)) ∅
  = builder.calculateTFIDF stepLog exampleTable.
Proof.
  apply (calculateTFIDF_any_range_order stepLog exampleTable
           (reverse (map_to_list exampleTable))
           (fun document => reverse (map_to_list document))).
  - apply reverse_Permutation.
  - intros document. apply reverse_Permutation.
Defined.

(** X18.  The two loops over a map of the search program give the same
    result in every order: the sum of the counts in [calculateTF] and the
    update of [DF] in [indexFolder]. *)
Theorem search_program_any_range_order (tf df : gmap (list rune) Z)
    (order : list (list rune * Z)) :
  order ≡ₚ map_to_list tf →
  fold_left (fun sum kv => wrap (sum + kv.2)) order 0 = sumOfTerms tf
  ∧ fold_left (fun df kv => incr kv.1 df) order df = bumpDF tf df.
Proof.
  intros Horder. split.
  - by apply sumOfTerms_any_order.
  - by apply bumpDF_any_order.
Qed.

Lemma search_program_any_range_order_witness :
  fold_left (fun sum kv => wrap (sum + kv.2))
    [(runes "Y", 1); (runes "X", 1)] 0
  = sumOfTerms (<[runes "X" := 1]> {[runes "Y" := 1]}).
Proof.
  refine (proj1 (search_program_any_range_order
                   (<[runes "X" := 1]> {[runes "Y" := 1]}) ∅
                   [(runes "Y", 1); (runes "X", 1)] _)).
  apply NoDup_Permutation.
  - apply (bool_decide_unpack _). vm_compute. reflexivity.
  - apply NoDup_map_to_list.
  - intros [k v]. rewrite elem_of_map_to_list. split.
    + intros Hin. apply elem_of_cons in Hin as [[= -> ->]|Hin];
        [vm_compute; reflexivity|].
      apply list_elem_of_singleton in Hin as [= -> ->]. vm_compute. reflexivity.
    + intros Hkv. destruct (decide (k = runes "X")) as [->|Hx].
      * rewrite lookup_insert_eq in Hkv. injection Hkv as <-. right. by left.
      * rewrite lookup_insert_ne in Hkv by done.
        apply lookup_singleton_Some in Hkv as [<- <-]. by left.
Defined.

(** ** Scoring and search *)

(** X19.  [calculateTF] is NaN exactly when the counts of the document
    add up to zero and the count of the term is zero; in particular it
    is a number for every document whose counts add up to something
    else. *)
Theorem calculateTF_NaN_iff (term : list rune) (tfTable : gmap (list rune) Z) :
  - 2 ^ 63 ≤ lookupInt tfTable term < 2 ^ 63 →
  calculateTF term tfTable = S754_nan
  ↔ sumOfTerms tfTable = 0 ∧ lookupInt tfTable term = 0.
Proof.
  intros Hr. rewrite calculateTF_sumOfTerms.
  pose proof (sumOfTerms_range tfTable) as Hs.
  destruct (Z.eq_dec (sumOfTerms tfTable) 0) as [Hs0|Hs0];
    destruct (Z.eq_dec (lookupInt tfTable term) 0) as [Hc0|Hc0].
  - rewrite Hs0, Hc0. done.
  - rewrite Hs0.
    destruct (f32_of_int_nonzero _ Hr Hc0) as (s & m & e & ->).
    split; [discriminate|]. intros [_ ?]. done.
  - rewrite Hc0.
    destruct (f32_of_int_nonzero _ Hs Hs0) as (s & m & e & ->).
    split; [discriminate|]. intros [? _]. done.
  - destruct (f32_of_int_nonzero _ Hr Hc0) as (s & m & e & ->).
    destruct (f32_of_int_nonzero _ Hs Hs0) as (s' & m' & e' & ->).
    split; [|intros [? _]; done].
    intros H. by apply SFdiv_finite_not_NaN in H.
Qed.

Lemma calculateTF_NaN_iff_witness :
  calculateTF (runes "C") (<[runes "A" := 2]> {[runes "B" := 1]}) = S754_nan
  ↔ sumOfTerms (<[runes "A" := 2]> {[runes "B" := 1]}) = 0
    ∧ lookupInt (<[runes "A" := 2]> {[runes "B" := 1]}) (runes "C") = 0.
Proof.
  apply (calculateTF_NaN_iff (runes "C") (<[runes "A" := 2]> {[runes "B" := 1]})).
  change (lookupInt (<[runes "A" := 2]> {[runes "B" := 1]}) (runes "C")) with 0.
  lia.
Defined.

(** X20.  On a model that satisfies the invariant of [DF], the product
    of tf and idf that [search] adds up for a token and a document is the
    value that the batch builder computes for that term and document of
    the table [TF]. *)
Theorem search_score_is_builder_tfidf (Log : float64 → float64) (m : Model)
    (document : gmap (list rune) Z) (t : list rune) :
  DFInvariant m →
  f32.mul (calculateTF t document)
          (calculateIDF Log (lookupInt (DF m) t) (Z.of_nat (size (TF m))))
  = builder.tfidfOf Log (TF m) document t (lookupInt document t).
Proof.
  intros Hinv. unfold builder.tfidfOf, builder.calculateIDF, calculateIDF.
  by rewrite numOfDocsWithTerm_spec, <- Hinv.
Qed.

Lemma search_score_is_builder_tfidf_witness :
  f32.mul (calculateTF (runes "X") {[runes "X" := 1]})
          (calculateIDF stepLog (lookupInt (DF exampleModel) (runes "X"))
             (Z.of_nat (size (TF exampleModel))))
  = builder.tfidfOf stepLog (TF exampleModel) {[runes "X" := 1]} (runes "X")
      (lookupInt ({[runes "X" := 1]} : gmap (list rune) Z) (runes "X")).
Proof.
  apply (search_score_is_builder_tfidf stepLog exampleModel).
  refine (proj1 (indexFolder_invariant unicode.latin1Only exampleFiles
                   newModel exampleModel _ _ DFInvariant_newModel _)).
  - apply (bool_decide_unpack _). vm_compute. reflexivity.
  - intros p _. apply lookup_empty.
  - vm_compute. reflexivity.
Defined.

(** X21.  When the sort only rearranges the slice, [search] returns one
    result for each document of the model and no other: as many results
    as documents, no path twice, and a result is returned exactly when
    its path is a document of the model and its rank is the rank of that
    document for the tokens of the query. *)
Theorem search_result_per_document (T : unicode.tables)
    (Log : float64 → float64)
    (Sort : (SearchResult → SearchResult → bool) →
            list SearchResult → list SearchResult)
    (order : list (string * gmap (list rune) Z)) (m : Model)
    (query : list rune) (tokens : list (list rune)) :
  (∀ less l, Sort less l ≡ₚ l) →
  order ≡ₚ map_to_list (TF m) →
  tokenize T query = Ok tokens →
  ∃ results, search T Log Sort order m query = Ok results
    ∧ length results = size (TF m)
    ∧ NoDup (Path <$> results)
    ∧ ∀ r, r ∈ results
           ↔ ∃ tfTable, TF m !! Path r = Some tfTable
                        ∧ Rank r = rankOf Log m tokens tfTable.
Proof.
  intros HSort Horder Htok. unfold search. rewrite Htok. cbn [mbind res_bind].
  eexists. split; [reflexivity|].
  assert (Hperm : Sort (Reverse Less) (resultsOf Log m tokens order)
                  ≡ₚ resultsOf Log m tokens (map_to_list (TF m))).
  { rewrite HSort. unfold resultsOf. by rewrite Horder. }
  split; [|split].
  - rewrite Hperm. unfold resultsOf. rewrite length_map.
    apply length_map_to_list.
  - rewrite Hperm. unfold resultsOf.
    replace (Path <$> map (fun '(path, tfTable) =>
               {| Path := path; Rank := rankOf Log m tokens tfTable |})
               (map_to_list (TF m)))
      with ((map_to_list (TF m)).*1).
    { apply NoDup_fst_map_to_list. }
    generalize (map_to_list (TF m)). intros l.
    induction l as [|[path tfTable] l IH]; [done|]. cbn. by rewrite IH.
  - intros r. rewrite Hperm. unfold resultsOf. split.
    + intros Hr. apply list_elem_of_fmap in Hr as ([path tfTable] & -> & Hin).
      exists tfTable. split; [|done]. by apply elem_of_map_to_list.
    + intros (tfTable & Hlook & Hrank). apply list_elem_of_fmap.
      exists (Path r, tfTable). split.
      * destruct r as [p rk]. simpl in *. by rewrite Hrank.
      * by apply elem_of_map_to_list.
Qed.

Lemma search_result_per_document_witness :
  ∃ results,
    search unicode.latin1Only stepLog insertionSort
      (map_to_list (TF exampleModel)) exampleModel (runes "x") = Ok results
    ∧ length results = size (TF exampleModel)
    ∧ NoDup (Path <$> results)
    ∧ ∀ r, r ∈ results
           ↔ ∃ tfTable, TF exampleModel !! Path r = Some tfTable
                        ∧ Rank r = rankOf stepLog exampleModel [runes "X"]
                                     tfTable.
Proof.
  apply (search_result_per_document unicode.latin1Only stepLog insertionSort
           (map_to_list (TF exampleModel)) exampleModel (runes "x")
           [runes "X"]).
  - intros less l. apply insertionSort_perm.
  - reflexivity.
  - vm_compute. reflexivity.
Defined.

(** X22.  When the sort meets the contract of [sort.Sort] and no document
    of the model has rank NaN for the query, the results of [search] are
    in descending order of rank: every result is followed only by results
    of a rank that is lower or equal. *)
Theorem search_descending (T : unicode.tables) (Log : float64 → float64)
    (Sort : (SearchResult → SearchResult → bool) →
            list SearchResult → list SearchResult)
    (order : list (string * gmap (list rune) Z)) (m : Model)
    (query : list rune) (tokens : list (list rune)) :
  SortSpec Sort →
  order ≡ₚ map_to_list (TF m) →
  tokenize T query = Ok tokens →
  (∀ path tfTable, TF m !! path = Some tfTable →
                   notNaN (rankOf Log m tokens tfTable)) →
  ∃ results, search T Log Sort order m query = Ok results
    ∧ ∀ i j a b, (i < j)%nat → results !! i = Some a → results !! j = Some b →
                 SFleb (Rank b) (Rank a) = true.
Proof.
  intros HSort Horder Htok Hnum.
  destruct (search_sorted T Log Sort HSort order m query tokens
              Horder Htok Hnum) as (results & Hrun & Hsorted).
  exists results. split; [done|]. clear Hrun.
  induction Hsorted as [|x xs Hs IH Hx]; intros i j a b Hij Hi Hj.
  { by rewrite lookup_nil in Hi. }
  destruct j as [|j]; [lia|]. cbn in Hj. destruct i as [|i].
  - cbn in Hi. injection Hi as ->. rewrite Forall_forall in Hx.
    apply Hx. by eapply list_elem_of_lookup_2.
  - cbn in Hi. apply (IH i j); [lia|done|done].
Qed.

Lemma search_descending_witness :
  ∃ results,
    search unicode.latin1Only stepLog insertionSort
      (map_to_list (TF exampleModel2)) exampleModel2 (runes "x") = Ok results
    ∧ ∀ i j a b, (i < j)%nat → results !! i = Some a → results !! j = Some b →
                 SFleb (Rank b) (Rank a) = true.
Proof.
  apply (search_descending unicode.latin1Only stepLog insertionSort
           (map_to_list (TF exampleModel2)) exampleModel2 (runes "x")
           [runes "X"]).
  - apply insertionSort_SortSpec.
  - reflexivity.
  - vm_compute. reflexivity.
  - intros path tfTable Hlook. unfold exampleModel2 in Hlook.
    cbn [TF] in Hlook.
    apply lookup_insert_Some in Hlook as [[_ <-]|[_ Hlook]];
      [vm_compute; discriminate|].
    apply lookup_insert_Some in Hlook as [[_ <-]|[_ Hlook]];
      [vm_compute; discriminate|].
    by rewrite lookup_empty in Hlook.
Defined.

(** X23.  A query of white space only has no tokens, and [search] then
    returns every document of the model with rank zero. *)
Theorem search_blank_query (T : unicode.tables) (Log : float64 → float64)
    (Sort : (SearchResult → SearchResult → bool) →
            list SearchResult → list SearchResult)
    (order : list (string * gmap (list rune) Z)) (m : Model)
    (query : list rune) :
  (∀ less l, Sort less l ≡ₚ l) →
  order ≡ₚ map_to_list (TF m) →
  forallb (unicode.IsSpace T) query = true →
  ∃ results, search T Log Sort order m query = Ok results
    ∧ results ≡ₚ (fun entry => {| Path := entry.1; Rank := f32.zero |})
                   <$> map_to_list (TF m).
Proof.
  intros HSort Horder Hblank. unfold search.
  rewrite tokenize_step, (proj2 (trimLeftRunes_nil_iff T query) Hblank).
  cbn [mbind res_bind]. eexists. split; [reflexivity|].
  rewrite HSort. unfold resultsOf, rankOf. cbn [fold_left].
  rewrite Horder. generalize (map_to_list (TF m)). intros l.
  induction l as [|[path tfTable] l IH]; [done|]. cbn. by rewrite IH.
Qed.

Lemma search_blank_query_witness :
  ∃ results,
    search unicode.latin1Only stepLog insertionSort
      (map_to_list (TF exampleModel)) exampleModel [32; 9] = Ok results
    ∧ results ≡ₚ (fun entry => {| Path := entry.1; Rank := f32.zero |})
                   <$> map_to_list (TF exampleModel).
Proof.
  apply (search_blank_query unicode.latin1Only stepLog insertionSort
           (map_to_list (TF exampleModel)) exampleModel [32; 9]).
  - intros less l. apply insertionSort_perm.
  - reflexivity.
  - reflexivity.
Defined.

(** X24.  [search] panics exactly on the queries in which some ['<'] is
    followed by no ['>'], whatever the model, the logarithm and the sort;
    on every other query it returns results. *)
Theorem search_Panic_iff (T : unicode.tables) (Log : float64 → float64)
    (Sort : (SearchResult → SearchResult → bool) →
            list SearchResult → list SearchResult)
    (order : list (string * gmap (list rune) Z)) (m : Model)
    (query : list rune) :
  (search T Log Sort order m query = Panic
   ↔ ∃ pre post, query = pre ++ 60 :: post ∧ forallb notGt post = true)
  ∧ (search T Log Sort order m query ≠ Panic →
     ∃ results, search T Log Sort order m query = Ok results).
Proof.
  unfold search. destruct (tokenize T query) as [tokens| |] eqn:Hrun;
    cbn [mbind res_bind].
  - split; [split; [done|]|by eexists].
    intros (pre & post & Htext & Hpost).
    assert (Hp : tokenize T query = Panic).
    { apply (tokenize_open_tag_Panic T (length query) query pre post);
        [apply Nat.le_refl|done|done]. }
    by rewrite Hp in Hrun.
  - split; [split; [|done]|done]. intros _.
    apply (tokenize_Panic_open_tag T (length query));
      [apply Nat.le_refl|done].
  - exfalso. revert Hrun. apply tokenizeLoop_enough. simpl. lia.
Qed.

(** X25.  [Less] compares ranks as a strict weak order on the results
    whose rank is not NaN: no result is less than itself, and both
    "less" and "not less" are transitive.  A result of rank NaN is
    neither less nor greater than any result. *)
Theorem Less_strict_weak_order :
  (∀ a, Less a a = false)
  ∧ (∀ a b c, Less a b = true → Less b c = true → Less a c = true)
  ∧ (∀ a b c, notNaN (Rank a) → notNaN (Rank b) → notNaN (Rank c) →
       Less a b = false → Less b c = false → Less a c = false)
  ∧ (∀ a b, Rank a = S754_nan → Less a b = false ∧ Less b a = false).
Proof.
  unfold Less. split; [|split; [|split]].
  - intros a. apply SFltb_irrefl.
  - intros a b c. apply SFltb_trans.
  - intros a b c. apply SFltb_neg_trans.
  - intros a b ->. split; [|apply SFltb_nan_r].
    by destruct (Rank b) as [[|]|[|]| |[|] ? ?].
Qed.

(** X29.  A document whose counts do not add up to zero and that holds
    none of the tokens of the query has rank zero, provided the idf of
    every token is a finite number: each token adds zero to the rank. *)
Theorem rankOf_absent_tokens_zero (Log : float64 → float64) (m : Model)
    (tokens : list (list rune)) (tfTable : gmap (list rune) Z) :
  sumOfTerms tfTable ≠ 0 →
  Forall (fun token => tfTable !! token = None) tokens →
  Forall (fun token =>
            isFinite (calculateIDF Log (lookupInt (DF m) token)
                        (Z.of_nat (size (TF m)))) = true) tokens →
  rankOf Log m tokens tfTable = f32.zero.
Proof.
  intros Hsum Habs Hidf. unfold rankOf.
  destruct (f32_of_int_nonzero _ (sumOfTerms_range tfTable) Hsum)
    as (s & mt & e & Hden).
  induction Habs as [|token tokens Htoken _ IH]; [done|].
  apply Forall_cons in Hidf as [Hfin Hidf]. cbn [fold_left].
  assert (Hzero : lookupInt tfTable token = 0).
  { unfold lookupInt. by rewrite Htoken. }
  rewrite calculateTF_sumOfTerms, Hden, Hzero.
  change (f32.div (f32.of_int 0) (S754_finite s mt e))
    with (S754_zero (xorb false s) : float32).
  destruct (calculateIDF Log _ _) as [s'| | |s' m' e']; try discriminate.
  - replace (f32.add f32.zero (f32.mul (S754_zero (xorb false s))
                                       (S754_zero s'))) with f32.zero
      by (by destruct s, s').
    by apply IH.
  - replace (f32.add f32.zero (f32.mul (S754_zero (xorb false s))
                                       (S754_finite s' m' e'))) with f32.zero
      by (by destruct s, s').
    by apply IH.
Qed.

Lemma rankOf_absent_tokens_zero_witness :
  rankOf stepLog exampleModel2 [runes "X"] {[runes "Y" := 1]} = f32.zero.
Proof.
  apply (rankOf_absent_tokens_zero stepLog exampleModel2 [runes "X"]
           {[runes "Y" := 1]}).
  - vm_compute. discriminate.
  - constructor; [|constructor]. vm_compute. reflexivity.
  - constructor; [|constructor]. vm_compute. reflexivity.
Defined.
